(** * Hash router, translation registry and view composer of the dashboard

  A shallow embedding of [src/router.js], [src/i18n/translations.js] and
  the route dispatch of [src/main.js], with the properties the
  specification states about them.

  JavaScript strings are sequences of UTF-16 code units; they are modelled
  as [list N].  Plain objects used as maps are [gmap]s over such strings.
  Code that can throw returns a [completion]; module level variables are
  threaded through a state-and-exception monad in which, as in JavaScript,
  the writes made before a [throw] stay visible. *)

From Stdlib Require Import NArith Lia Ascii String.
From stdpp Require Import gmap list strings.

Local Open Scope N_scope.
Local Open Scope list_scope.

(* ===================================================================== *)
(** ** JavaScript values and string primitives *)
(* ===================================================================== *)

Module Js.

(** A string is its list of UTF-16 code units. *)
Abbreviation jsstr := (list N).

(** Code unit of an ASCII character. *)
Definition ch (a : ascii) : N := N_of_ascii a.
Arguments ch : simpl never.

(** Source literals are written in UTF-8; [of_utf8] turns the bytes of a
    literal into the code units the JavaScript engine holds. *)
Fixpoint of_utf8 (bs : list N) : jsstr :=
  match bs with
  | [] => []
  | b0 :: r0 =>
    if b0 <? 128 then b0 :: of_utf8 r0
    else match r0 with
    | [] => []
    | b1 :: r1 =>
      if b0 <? 224 then ((b0 mod 32) * 64 + b1 mod 64) :: of_utf8 r1
      else match r1 with
      | [] => []
      | b2 :: r2 =>
        if b0 <? 240
        then ((b0 mod 16) * 4096 + (b1 mod 64) * 64 + b2 mod 64) :: of_utf8 r2
        else match r2 with
        | [] => []
        | b3 :: r3 =>
          let cp := (b0 mod 8) * 262144 + (b1 mod 64) * 4096
                    + (b2 mod 64) * 64 + b3 mod 64 in
          (55296 + (cp - 65536) / 1024) :: (56320 + (cp - 65536) mod 1024)
            :: of_utf8 r3
        end
      end
    end
  end.

Definition js (s : string) : jsstr :=
  of_utf8 (map N_of_ascii (list_ascii_of_string s)).
Arguments js : simpl never.

(** *** Completions *)

Inductive exn :=
| URIError
| Thrown (tag : nat).

Inductive completion (A : Type) :=
| Normal (a : A)
| Abrupt (e : exn).
Arguments Normal {A} a.
Arguments Abrupt {A} e.

(** An abrupt completion ends the evaluation of what follows it. *)
#[export] Instance completion_ret : MRet completion := λ A a, Normal a.

#[export] Instance completion_bind : MBind completion := λ A B k c,
  match c with
  | Normal a => k a
  | Abrupt e => Abrupt e
  end.

(** *** [String.prototype] methods used by the sources *)

(** WhiteSpace and LineTerminator code points, as [trim] strips them. *)
Definition is_white_space (c : N) : bool :=
  (9 <=? c) && (c <=? 13)
  || (c =? 32) || (c =? 160) || (c =? 5760)
  || (8192 <=? c) && (c <=? 8202)
  || (c =? 8232) || (c =? 8233) || (c =? 8239) || (c =? 8287)
  || (c =? 12288) || (c =? 65279).

Fixpoint trimStart (s : jsstr) : jsstr :=
  match s with
  | c :: r => if is_white_space c then trimStart r else s
  | [] => []
  end.

Definition trimEnd (s : jsstr) : jsstr := rev (trimStart (rev s)).

Definition trim (s : jsstr) : jsstr := trimEnd (trimStart s).

Fixpoint startsWith (s p : jsstr) {struct p} : bool :=
  match p, s with
  | [], _ => true
  | a :: p', b :: s' => (b =? a) && startsWith s' p'
  | _ :: _, [] => false
  end.

Definition endsWith (s p : jsstr) : bool := startsWith (rev s) (rev p).

(** [s.slice(n)] for [0 <= n]. *)
Definition slice_from (n : nat) (s : jsstr) : jsstr := drop n s.

(** [s.slice(0, n)] for [0 <= n]. *)
Definition slice_to (n : nat) (s : jsstr) : jsstr := take n s.

(** [s.slice(0, -1)]. *)
Definition slice_but_last (s : jsstr) : jsstr := take (length s - 1) s.

(** [s.indexOf(c)] for a one-character [c]; [None] stands for [-1]. *)
Fixpoint indexOf (c : N) (s : jsstr) : option nat :=
  match s with
  | [] => None
  | x :: r => if x =? c then Some O else S <$> indexOf c r
  end.

(** [s.split(c)] for a one-character separator: never the empty array. *)
Fixpoint split (c : N) (s : jsstr) : list jsstr :=
  match s with
  | [] => [[]]
  | x :: r =>
    if x =? c then [] :: split c r
    else match split c r with
         | h :: t => (x :: h) :: t
         | [] => [[x]]
         end
  end.

(** [s.replace(/\/{2,}/g, '/')]: every maximal run of two or more
    slashes becomes one slash. *)
Fixpoint collapse_slashes (s : jsstr) : jsstr :=
  match s with
  | a :: r =>
    match r with
    | b :: _ =>
      if (a =? ch "/") && (b =? ch "/") then collapse_slashes r
      else a :: collapse_slashes r
    | [] => [a]
    end
  | [] => []
  end.

Definition is_empty (s : jsstr) : bool :=
  match s with [] => true | _ => false end.

(** Two adjacent slashes somewhere in the string (used to state what
    [collapse_slashes] achieves). *)
Fixpoint has_double_slash (s : jsstr) : bool :=
  match s with
  | a :: r =>
    match r with
    | b :: _ => (a =? 47) && (b =? 47) || has_double_slash r
    | [] => false
    end
  | [] => false
  end.


(** *** [decodeURIComponent] *)

Definition hex_digit (c : N) : option N :=
  if (48 <=? c) && (c <=? 57) then Some (c - 48)
  else if (65 <=? c) && (c <=? 70) then Some (c - 55)
  else if (97 <=? c) && (c <=? 102) then Some (c - 87)
  else None.

(** The two hexadecimal digits after a [%]. *)
Definition hex_octet (s : jsstr) : option (N * jsstr) :=
  match s with
  | h1 :: h2 :: r =>
    match hex_digit h1, hex_digit h2 with
    | Some a, Some b => Some (a * 16 + b, r)
    | _, _ => None
    end
  | _ => None
  end.

(** Number of leading 1 bits of an octet with the high bit set. *)
Definition leading_ones (b : N) : nat :=
  if b <? 192 then 1%nat
  else if b <? 224 then 2%nat
  else if b <? 240 then 3%nat
  else if b <? 248 then 4%nat
  else 5%nat.

(** The [k] escaped continuation octets that follow a lead octet. *)
Fixpoint continuation (k : nat) (s : jsstr) : option (list N * jsstr) :=
  match k with
  | O => Some ([], s)
  | S k' =>
    match s with
    | c :: r =>
      if c =? ch "%" then
        match hex_octet r with
        | Some (b, r') =>
          match continuation k' r' with
          | Some (bs, r'') => Some (b :: bs, r'')
          | None => None
          end
        | None => None
        end
      else None
    | [] => None
    end
  end.

Definition is_continuation (b : N) : bool := (128 <=? b) && (b <? 192).

(** The code point a well-formed UTF-8 sequence encodes: no overlong
    form, no surrogate, nothing above U+10FFFF. *)
Definition utf8_code_point (lead : N) (rest : list N) : option N :=
  if forallb is_continuation rest then
    let v := fold_left (fun acc b => acc * 64 + b mod 64) rest
               (match length rest with
                | 1%nat => lead mod 32
                | 2%nat => lead mod 16
                | _ => lead mod 8
                end) in
    match length rest with
    | 1%nat => if 128 <=? v then Some v else None
    | 2%nat =>
      if (2048 <=? v) && negb ((55296 <=? v) && (v <=? 57343))
      then Some v else None
    | 3%nat => if (65536 <=? v) && (v <=? 1114111) then Some v else None
    | _ => None
    end
  else None.

Definition utf16_encode (cp : N) : jsstr :=
  if cp <? 65536 then [cp]
  else [55296 + (cp - 65536) / 1024; 56320 + (cp - 65536) mod 1024].

(** The Decode operation of ECMA-262 with an empty reserved set.  Every
    round consumes at least one code unit, so the length of the input is
    fuel enough (see [decode_fuel]). *)
Fixpoint decode (fuel : nat) (s : jsstr) : completion jsstr :=
  match fuel, s with
  | _, [] => Normal []
  | O, _ :: _ => Normal []
  | S fuel', c :: r =>
    if c =? ch "%" then
      match hex_octet r with
      | None => Abrupt URIError
      | Some (b, r1) =>
        if b <? 128 then t ← decode fuel' r1; Normal (b :: t)
        else
          let n := leading_ones b in
          if (n =? 1)%nat || (4 <? n)%nat then Abrupt URIError
          else match continuation (n - 1) r1 with
               | None => Abrupt URIError
               | Some (octets, r2) =>
                 match utf8_code_point b octets with
                 | None => Abrupt URIError
                 | Some v =>
                   t ← decode fuel' r2; Normal (utf16_encode v ++ t)
                 end
               end
      end
    else t ← decode fuel' r; Normal (c :: t)
  end.

Definition decodeURIComponent (s : jsstr) : completion jsstr :=
  decode (length s) s.

(** *** Module state with exceptions

    A computation reads and writes the variables of its module and
    completes normally or abruptly; the state it leaves behind is kept in
    both cases. *)

Definition M (S A : Type) : Type := S -> completion A * S.

#[export] Instance M_ret {S} : MRet (M S) := λ A a s, (Normal a, s).

#[export] Instance M_bind {S} : MBind (M S) := λ A B k c s,
  match c s with
  | (Normal a, s') => k a s'
  | (Abrupt e, s') => (Abrupt e, s')
  end.

Definition get {S} : M S S := λ s, (Normal s, s).

Definition modify {S} (f : S -> S) : M S unit := λ s, (Normal tt, f s).

Definition lift {S A} (c : completion A) : M S A := λ s, (c, s).

(** [try { c } catch { }]: an abrupt completion of the body is dropped. *)
Definition try_catch {S} (c : M S unit) : M S unit := λ s,
  match c s with
  | (Normal _, s') => (Normal tt, s')
  | (Abrupt _, s') => (Normal tt, s')
  end.

(** [for (const x of xs) body(x)]. *)
Fixpoint for_of {S A} (xs : list A) (body : A -> M S unit) : M S unit :=
  match xs with
  | [] => mret tt
  | x :: rest => body x ;; for_of rest body
  end.

(** *** Callbacks

    A function value handed to a module: [cb_id] is its identity (what
    [Set.prototype.add] and [delete] compare), [cb_run] tells whether a
    call with a given argument returns or throws.  Callbacks are opaque
    to the module state. *)

Record callback (A : Type) := {
  cb_id : nat;
  cb_run : A -> completion unit;
}.
Arguments cb_id {A} c.
Arguments cb_run {A} c a.

(** [set.add(cb)]: insertion order is kept, a member is not added twice. *)
Definition set_add {A} (cb : callback A) (l : list (callback A))
  : list (callback A) :=
  if existsb (fun x => Nat.eqb (cb_id x) (cb_id cb)) l then l else l ++ [cb].

(** [set.delete(cb)]. *)
Definition set_delete {A} (cb : callback A) (l : list (callback A))
  : list (callback A) :=
  List.filter (fun x => negb (Nat.eqb (cb_id x) (cb_id cb))) l.

End Js.

Import Js.

(* ===================================================================== *)
(** ** [router.js]: the route model *)
(* ===================================================================== *)

Module Router.

Record Route := {
  path : jsstr;
  segments : list jsstr;
  params : gmap jsstr jsstr;
}.

Definition ROUTE_WHITELIST : list jsstr :=
  [js "/home"; js "/status"; js "/basic"; js "/advanced";
   js "/management"; js "/application"].

(** [normalizePath(raw)].  The parameter is a string: the guard
    [typeof raw !== 'string'] only maps other values to the empty
    string. *)
Definition normalizePath (raw : jsstr) : jsstr :=
  let s := trim raw in
  let s := if startsWith s (js "#") then slice_from 1 s else s in
  let s := if startsWith s (js "!") then slice_from 1 s else s in
  let s := if startsWith s (js "/") then s else js "/" ++ s in
  let s := collapse_slashes s in
  let onlyPath := hd [] (split (ch "?") s) in
  let cleaned :=
    if (1 <? length onlyPath)%nat && endsWith onlyPath (js "/")
    then slice_but_last onlyPath else onlyPath in
  if is_empty cleaned then js "/" else cleaned.

(** [out[key] = value] on an object created by [{}]: the inherited
    [__proto__] setter swallows the assignment of a string. *)
Definition set_property (key value : jsstr) (out : gmap jsstr jsstr)
  : gmap jsstr jsstr :=
  if decide (key = js "__proto__") then out else <[key := value]> out.

Definition parse_part (out : gmap jsstr jsstr) (part : jsstr)
  : completion (gmap jsstr jsstr) :=
  if is_empty part then Normal out
  else match indexOf (ch "=") part with
       | None =>
         key ← decodeURIComponent part;
         Normal (if is_empty key then out else set_property key [] out)
       | Some eq =>
         key ← decodeURIComponent (slice_to eq part);
         value ← decodeURIComponent (slice_from (S eq) part);
         Normal (if is_empty key then out else set_property key value out)
       end.

Fixpoint parse_parts (out : gmap jsstr jsstr) (parts : list jsstr)
  : completion (gmap jsstr jsstr) :=
  match parts with
  | [] => Normal out
  | part :: rest => out' ← parse_part out part; parse_parts out' rest
  end.

(** [parseParams(raw)]. *)
Definition parseParams (raw : jsstr) : completion (gmap jsstr jsstr) :=
  if is_empty raw then Normal ∅
  else match indexOf (ch "?") raw with
       | None => Normal ∅
       | Some idx =>
         let query := slice_from (S idx) raw in
         if is_empty query then Normal ∅
         else parse_parts ∅ (split (ch "&") query)
       end.

(** [toSegments(path)]: [filter(Boolean)] keeps the non-empty pieces. *)
Definition toSegments (p : jsstr) : list jsstr :=
  if is_empty p || bool_decide (p = js "/") then []
  else List.filter (fun x => negb (is_empty x)) (split (ch "/") p).

(** [isAllowedRoute(path)]. *)
Definition isAllowedRoute (p : jsstr) : bool :=
  if bool_decide (p = js "/") || is_empty p then false
  else existsb (fun base => bool_decide (p = base) || startsWith p (base ++ js "/"))
               ROUTE_WHITELIST.

(** The part of [buildRouteFrom] after the raw hash has been chosen. *)
Definition route_of (raw : jsstr) : completion Route :=
  let normalizedPath := normalizePath raw in
  params ← parseParams raw;
  let segments := toSegments normalizedPath in
  Normal {| path := normalizedPath; segments := segments; params := params |}.


(** *** The router's module state and its platform *)

(** [window]: the fragment of the location ([location.hash] reads [""] or
    ["#..."]), the session history behind the current entry, and whether
    [debouncedHandleRouteChange] is bound to [hashchange].  The platform
    is taken to keep a fragment as it was written, without escaping any of
    its characters. *)
Record Window := {
  location_hash : jsstr;
  history : list jsstr;
  hashchange_bound : bool;
}.

Record State := {
  _defaultRoute : jsstr;
  _listeners : list (callback Route);
  _currentRoute : option Route;
  _isInitialized : bool;
  (** a debounce timer is pending *)
  _debounceTimer : bool;
  win : option Window;
  (** listener invocations so far, oldest first: who was called with what *)
  calls : list (nat * Route);
}.

Definition set_defaultRoute (d : jsstr) (st : State) : State :=
  {| _defaultRoute := d; _listeners := _listeners st;
     _currentRoute := _currentRoute st; _isInitialized := _isInitialized st;
     _debounceTimer := _debounceTimer st; win := win st; calls := calls st |}.

Definition set_listeners (l : list (callback Route)) (st : State) : State :=
  {| _defaultRoute := _defaultRoute st; _listeners := l;
     _currentRoute := _currentRoute st; _isInitialized := _isInitialized st;
     _debounceTimer := _debounceTimer st; win := win st; calls := calls st |}.

Definition set_currentRoute (r : option Route) (st : State) : State :=
  {| _defaultRoute := _defaultRoute st; _listeners := _listeners st;
     _currentRoute := r; _isInitialized := _isInitialized st;
     _debounceTimer := _debounceTimer st; win := win st; calls := calls st |}.

Definition set_isInitialized (b : bool) (st : State) : State :=
  {| _defaultRoute := _defaultRoute st; _listeners := _listeners st;
     _currentRoute := _currentRoute st; _isInitialized := b;
     _debounceTimer := _debounceTimer st; win := win st; calls := calls st |}.

Definition set_debounceTimer (b : bool) (st : State) : State :=
  {| _defaultRoute := _defaultRoute st; _listeners := _listeners st;
     _currentRoute := _currentRoute st; _isInitialized := _isInitialized st;
     _debounceTimer := b; win := win st; calls := calls st |}.

Definition set_win (w : option Window) (st : State) : State :=
  {| _defaultRoute := _defaultRoute st; _listeners := _listeners st;
     _currentRoute := _currentRoute st; _isInitialized := _isInitialized st;
     _debounceTimer := _debounceTimer st; win := w; calls := calls st |}.

Definition log_call (id : nat) (r : Route) (st : State) : State :=
  {| _defaultRoute := _defaultRoute st; _listeners := _listeners st;
     _currentRoute := _currentRoute st; _isInitialized := _isInitialized st;
     _debounceTimer := _debounceTimer st; win := win st;
     calls := calls st ++ [(id, r)] |}.

(** [win ? win.location.hash : ''] *)
Definition current_hash (st : State) : jsstr :=
  match win st with
  | Some w => location_hash w
  | None => []
  end.

(** [cb(route)] *)
Definition call (cb : callback Route) (r : Route) : M State unit :=
  modify (log_call (cb_id cb) r) ;; lift (cb_run cb r).

(** [buildRouteFrom(rawHash)]: both uses of
    [rawHash || (win ? win.location.hash : '')] read the same value. *)
Definition buildRouteFrom (rawHash : jsstr) : M State Route :=
  st ← get;
  lift (route_of (if is_empty rawHash then current_hash st else rawHash)).

(** [emit(route)] *)
Definition emit (r : Route) : M State unit :=
  modify (set_currentRoute (Some r)) ;;
  st ← get;
  for_of (_listeners st) (fun cb => try_catch (call cb r)).

(** [debouncedHandleRouteChange()]: a pending timer is cleared and a new
    one is set; [handleRouteChange] runs when it expires ([timer_expires]). *)
Definition debouncedHandleRouteChange : M State unit :=
  modify (set_debounceTimer true).

(** [win.location.hash = normalized]: a new history entry unless the
    fragment stays the same.  [normalized] starts with a slash, so the
    fragment read back is ['#' + normalized]. *)
Definition assign_hash (normalized : jsstr) (w : Window) : Window :=
  let target := js "#" ++ normalized in
  {| location_hash := target;
     history := if bool_decide (location_hash w = target) then history w
                else location_hash w :: history w;
     hashchange_bound := hashchange_bound w |}.

(** [win.location.replace(targetHash)]: the current entry is replaced. *)
Definition replace_hash (targetHash : jsstr) (w : Window) : Window :=
  {| location_hash := targetHash; history := history w;
     hashchange_bound := hashchange_bound w |}.

(** [navigate(path, { replace, silent })]; [path || ''] is [path] for a
    string. *)
Definition navigate (p : jsstr) (replace silent : bool) : M State unit :=
  let normalized := normalizePath p in
  st ← get;
  match win st with
  | None => mret tt
  | Some w =>
    let targetHash := js "#" ++ normalized in
    modify (set_win (Some (if replace then replace_hash targetHash w
                           else assign_hash normalized w))) ;;
    if silent then mret tt else debouncedHandleRouteChange
  end.

(** [handleRouteChange()] *)
Definition handleRouteChange : M State unit :=
  st ← get;
  let raw := current_hash st in
  route ← buildRouteFrom raw;
  if negb (isAllowedRoute (path route))
  then navigate (_defaultRoute st) true false
  else emit route.

(** [onRouteChange(cb)] *)
Definition onRouteChange (cb : callback Route) : M State unit :=
  st ← get;
  modify (set_listeners (set_add cb (_listeners st))).

(** [offRouteChange(cb)] *)
Definition offRouteChange (cb : callback Route) : M State unit :=
  st ← get;
  modify (set_listeners (set_delete cb (_listeners st))).

(** The [options] of [initRouter]; an absent or ill-typed member is
    [None]. *)
Record Options := {
  opt_defaultRoute : option jsstr;
  opt_onRouteChange : option (callback Route);
}.

Definition update_defaultRoute (options : Options) : M State unit :=
  match opt_defaultRoute options with
  | Some d => if is_empty d then mret tt
              else modify (set_defaultRoute (normalizePath d))
  | None => mret tt
  end.

(** [initRouter(options)] *)
Definition initRouter (options : Options) : M State unit :=
  st ← get;
  if _isInitialized st then
    update_defaultRoute options ;;
    match opt_onRouteChange options with
    | Some cb =>
      onRouteChange cb ;;
      st' ← get;
      match _currentRoute st' with
      | Some r => try_catch (call cb r)
      | None => mret tt
      end
    | None => mret tt
    end
  else
    modify (set_isInitialized true) ;;
    update_defaultRoute options ;;
    match opt_onRouteChange options with
    | Some cb => onRouteChange cb
    | None => mret tt
    end ;;
    st' ← get;
    match win st' with
    | Some w =>
      modify (set_win (Some {| location_hash := location_hash w;
                               history := history w;
                               hashchange_bound := true |}))
    | None => mret tt
    end ;;
    debouncedHandleRouteChange.

(** [getRoute()] *)
Definition getRoute : M State Route :=
  st ← get;
  match _currentRoute st with
  | Some r => mret r
  | None => buildRouteFrom (current_hash st)
  end.

(** The callback given to [setTimeout] in [debouncedHandleRouteChange],
    run by the platform when the pending timer expires. *)
Definition timer_expires : M State unit :=
  st ← get;
  if _debounceTimer st
  then modify (set_debounceTimer false) ;; handleRouteChange
  else mret tt.

(** The fragment is changed from outside the module (address bar, a link,
    history traversal) or the platform delivers a [hashchange] for it. *)
Definition hash_changes (h : jsstr) : M State unit :=
  st ← get;
  match win st with
  | None => mret tt
  | Some w =>
    modify (set_win (Some {| location_hash := h;
                             history := if bool_decide (location_hash w = h)
                                        then history w
                                        else location_hash w :: history w;
                             hashchange_bound := hashchange_bound w |})) ;;
    if hashchange_bound w then debouncedHandleRouteChange else mret tt
  end.

(** What can happen to the router. *)
Inductive event :=
| InitRouter (options : Options)
| Navigate (p : jsstr) (replace silent : bool)
| OnRouteChange (cb : callback Route)
| OffRouteChange (cb : callback Route)
| TimerExpires
| HashChanges (h : jsstr).

Definition handle (e : event) : M State unit :=
  match e with
  | InitRouter options => initRouter options
  | Navigate p replace silent => navigate p replace silent
  | OnRouteChange cb => onRouteChange cb
  | OffRouteChange cb => offRouteChange cb
  | TimerExpires => timer_expires
  | HashChanges h => hash_changes h
  end.

(** The state an event leaves behind, whether it completed or threw. *)
Definition after (e : event) (st : State) : State := (handle e st).2.

(** The module as loaded: in a page whose fragment reads [h], or
    outside a browser ([None]). *)
Definition loaded (h : option jsstr) : State :=
  {| _defaultRoute := js "/home"; _listeners := []; _currentRoute := None;
     _isInitialized := false; _debounceTimer := false;
     win := (fun x => {| location_hash := x; history := [];
                         hashchange_bound := false |}) <$> h;
     calls := [] |}.

Inductive reachable : State -> Prop :=
| reachable_loaded h : reachable (loaded h)
| reachable_after e st : reachable st -> reachable (after e st).

(** Timers run until none is pending; [n] bounds the number of expiries
    looked at. *)
Fixpoint settle (n : nat) (st : State) : State :=
  match n with
  | O => st
  | S n' => if _debounceTimer st then settle n' (after TimerExpires st) else st
  end.

(** A route is allowed when its path is a whitelist entry or lies below
    one. *)
Definition allowed (p : jsstr) : Prop :=
  ∃ base, base ∈ ROUTE_WHITELIST ∧ (p = base ∨ ∃ t, p = base ++ js "/" ++ t).

(** The invariant of the router state: the stored route and every route
    handed to a listener so far are allowed. *)
Definition inv (st : State) : Prop :=
  match _currentRoute st with
  | Some r => allowed (path r)
  | None => True
  end
  ∧ Forall (λ c, allowed (path c.2)) (calls st).

(** The options [main.js] passes. *)
Definition home_options : Options :=
  {| opt_defaultRoute := Some (js "/home"); opt_onRouteChange := None |}.


(** Two sample listeners: one that always throws, one that returns. *)
Definition faulty : callback Route :=
  {| cb_id := 1; cb_run := λ _, Abrupt (Thrown 0) |}.

Definition sound : callback Route :=
  {| cb_id := 2; cb_run := λ _, Normal tt |}.

End Router.

(* ===================================================================== *)
(** ** [i18n/translations.js]: the translation registry *)
(* ===================================================================== *)

Module Translations.

Local Set Warnings "-register-all".

(** The values a dotted path can reach: strings, the numbers found
    under [length], dictionary subtrees, and built-in objects of the host
    (named by the [Object.prototype] member that leads to them). *)
Inductive jsval :=
| VUndef
| VStr (s : jsstr)
| VNum (n : N)
| VObj (props : list (jsstr * jsval))
| VHost (name : jsstr).

Definition str (s : string) : jsval := VStr (js s).

Definition obj (props : list (string * jsval)) : jsval :=
  VObj (map (fun kv => (js kv.1, kv.2)) props).

Definition en : jsval := obj [
  ("app", obj [("title", str "User Dashboard")]);
  ("header", obj [
    ("language", str "Language");
    ("account", str "Account");
    ("logout", str "Logout")]);
  ("navigation", obj [
    ("home", str "Home");
    ("status", str "Status");
    ("basicSettings", str "Basic Settings");
    ("advancedSettings", str "Advanced Settings");
    ("management", str "Management");
    ("application", str "Application");
    ("statusLan", str "LAN");
    ("statusWan", str "WAN");
    ("statusWlan", str "WLAN");
    ("statusDhcp", str "DHCP");
    ("statusLog", str "Log");
    ("basicLan", str "LAN");
    ("basicWan", str "WAN");
    ("basicWlan", str "WLAN");
    ("basicDhcp", str "DHCP");
    ("advancedServiceControl", str "Service Control");
    ("advancedDdns", str "DDNS");
    ("advancedDmz", str "DMZ");
    ("managementNtp", str "NTP");
    ("managementSsh", str "SSH");
    ("managementFirmware", str "Firmware Upgrade");
    ("applicationUpnp", str "UPnP")]);
  ("sections", obj [
    ("home", str "Home");
    ("status", str "Status");
    ("basicSettings", str "Basic Settings");
    ("advancedSettings", str "Advanced Settings");
    ("management", str "Management");
    ("application", str "Application")]);
  ("pages", obj [
    ("home", obj [
      ("title", str "Welcome to the Dashboard");
      ("subtitle", str "Select an item from the menu to get started.")]);
    ("status", obj [
      ("title", str "System Status");
      ("subtitle", str "View system health and live metrics.")]);
    ("basicSettings", obj [
      ("title", str "Basic Settings");
      ("subtitle", str "Configure common settings.")]);
    ("advancedSettings", obj [
      ("title", str "Advanced Settings");
      ("subtitle", str "Tweak advanced parameters.")]);
    ("management", obj [
      ("title", str "Management");
      ("subtitle", str "Manage users, roles, and permissions.")]);
    ("application", obj [
      ("title", str "Application");
      ("subtitle", str "Application-level configuration and tools.")]);
    ("notFound", obj [
      ("title", str "Page Not Found");
      ("subtitle", str "The page you are looking for does not exist.")])])].

Definition es : jsval := obj [
  ("app", obj [("title", str "Panel de Usuario")]);
  ("header", obj [
    ("language", str "Idioma");
    ("account", str "Cuenta");
    ("logout", str "Cerrar sesión")]);
  ("navigation", obj [
    ("home", str "Inicio");
    ("status", str "Estado");
    ("basicSettings", str "Configuración Básica");
    ("advancedSettings", str "Configuración Avanzada");
    ("management", str "Administración");
    ("application", str "Aplicación");
    ("statusLan", str "LAN");
    ("statusWan", str "WAN");
    ("statusWlan", str "WLAN");
    ("statusDhcp", str "DHCP");
    ("statusLog", str "Registro");
    ("basicLan", str "LAN");
    ("basicWan", str "WAN");
    ("basicWlan", str "WLAN");
    ("basicDhcp", str "DHCP");
    ("advancedServiceControl", str "Control de Servicio");
    ("advancedDdns", str "DDNS");
    ("advancedDmz", str "DMZ");
    ("managementNtp", str "NTP");
    ("managementSsh", str "SSH");
    ("managementFirmware", str "Actualización de Firmware");
    ("applicationUpnp", str "UPnP")]);
  ("sections", obj [
    ("home", str "Inicio");
    ("status", str "Estado");
    ("basicSettings", str "Configuración Básica");
    ("advancedSettings", str "Configuración Avanzada");
    ("management", str "Administración");
    ("application", str "Aplicación")]);
  ("pages", obj [
    ("home", obj [
      ("title", str "Bienvenido al Panel");
      ("subtitle", str "Selecciona un elemento del menú para comenzar.")]);
    ("status", obj [
      ("title", str "Estado del Sistema");
      ("subtitle", str "Ver salud del sistema y métricas en vivo.")]);
    ("basicSettings", obj [
      ("title", str "Configuración Básica");
      ("subtitle", str "Configura los ajustes comunes.")]);
    ("advancedSettings", obj [
      ("title", str "Configuración Avanzada");
      ("subtitle", str "Ajusta parámetros avanzados.")]);
    ("management", obj [
      ("title", str "Administración");
      ("subtitle", str "Gestiona usuarios, roles y permisos.")]);
    ("application", obj [
      ("title", str "Aplicación");
      ("subtitle", str "Configuración y herramientas a nivel de aplicación.")]);
    ("notFound", obj [
      ("title", str "Página No Encontrada");
      ("subtitle", str "La página que buscas no existe.")])])].

(** The own properties of [dictionaries]. *)
Definition dictionaries : list (jsstr * jsval) :=
  [(js "en", en); (js "es", es)].

(** What an object literal inherits from [Object.prototype]; each of
    these members is a function or, for [__proto__], the prototype
    object itself, hence truthy. *)
Definition object_prototype_members : list jsstr :=
  [js "constructor"; js "__defineGetter__"; js "__defineSetter__";
   js "hasOwnProperty"; js "__lookupGetter__"; js "__lookupSetter__";
   js "isPrototypeOf"; js "propertyIsEnumerable"; js "toString";
   js "valueOf"; js "__proto__"; js "toLocaleString"].

Fixpoint assoc (k : jsstr) (props : list (jsstr * jsval)) : option jsval :=
  match props with
  | [] => None
  | (k', v) :: rest => if bool_decide (k' = k) then Some v else assoc k rest
  end.

(** [dictionaries[lang]]: a property read, which follows the prototype
    chain. *)
Definition dictionaries_get (lang : jsstr) : jsval :=
  match assoc lang dictionaries with
  | Some d => d
  | None => if bool_decide (lang ∈ object_prototype_members)
            then VHost lang else VUndef
  end.

Definition truthy (v : jsval) : bool :=
  match v with
  | VUndef => false
  | VStr s => negb (is_empty s)
  | VNum n => negb (n =? 0)
  | VObj _ => true
  | VHost _ => true
  end.

(** A canonical array index: decimal digits without a leading zero. *)
Fixpoint digits_value (acc : nat) (s : jsstr) : option nat :=
  match s with
  | [] => Some acc
  | c :: r => if (48 <=? c) && (c <=? 57)
              then digits_value (acc * 10 + N.to_nat (c - 48)) r
              else None
  end.

Definition array_index (p : jsstr) : option nat :=
  match p with
  | [] => None
  | [c] => digits_value 0 [c]
  | c :: _ => if c =? 48 then None else digits_value 0 p
  end.

(** [\w] *)
Definition is_word (c : N) : bool :=
  (48 <=? c) && (c <=? 57) || (65 <=? c) && (c <=? 90)
  || (97 <=? c) && (c <=? 122) || (c =? 95).

Fixpoint span_word (s : jsstr) : jsstr * jsstr :=
  match s with
  | c :: r => if is_word c
              then let '(w, rest) := span_word r in (c :: w, rest)
              else ([], s)
  | [] => ([], [])
  end.

(** [String(str).replace(/\{(\w+)\}/g, ...)] over the own properties
    of [vars]; the length of the input is fuel enough. *)
Fixpoint replace_placeholders (fuel : nat) (vars : gmap jsstr jsstr)
         (s : jsstr) : jsstr :=
  match fuel, s with
  | _, [] => []
  | O, _ :: _ => s
  | S fuel', c :: r =>
    if c =? ch "{" then
      match span_word r with
      | (k :: w, c' :: r') =>
        if c' =? ch "}" then
          match vars !! (k :: w) with
          | Some v => v ++ replace_placeholders fuel' vars r'
          | None => (c :: k :: w) ++ c' :: replace_placeholders fuel' vars r'
          end
        else c :: replace_placeholders fuel' vars r
      | _ => c :: replace_placeholders fuel' vars r
      end
    else c :: replace_placeholders fuel' vars r
  end.

(** [interpolate(str, vars)] for a string [str]. *)
Definition interpolate (s : jsstr) (vars : option (gmap jsstr jsstr)) : jsstr :=
  match vars with
  | None => s
  | Some vs => replace_placeholders (length s) vs s
  end.

Section Host.

(** [host_own name p]: the own property [p] of the built-in object
    reached through the [Object.prototype] member [name], if it has
    one.  The sources do not fix it; everything below holds for every
    host. *)
Variable host_own : jsstr -> jsstr -> option jsval.

(** The own property [p] of [cur], as
    [Object.prototype.hasOwnProperty.call(cur, p)] and [cur[p]] see
    it: a string owns [length] and its indices. *)
Definition own_property (cur : jsval) (p : jsstr) : option jsval :=
  match cur with
  | VUndef => None
  | VStr s =>
    if bool_decide (p = js "length") then Some (VNum (N.of_nat (length s)))
    else match array_index p with
         | Some i => (fun c => VStr [c]) <$> s !! i
         | None => None
         end
  | VNum _ => None
  | VObj props => assoc p props
  | VHost name => host_own name p
  end.

Fixpoint walk (cur : jsval) (parts : list jsstr) : jsval :=
  match parts with
  | [] => cur
  | p :: rest =>
    if truthy cur then
      match own_property cur p with
      | Some v => walk v rest
      | None => VUndef
      end
    else VUndef
  end.

(** [pathGet(obj, path)] *)
Definition pathGet (o : jsval) (p : jsstr) : jsval :=
  if negb (truthy o) then VUndef else walk o (split (ch ".") p).

(** [dictionaries[lang] || dictionaries.en] *)
Definition dictionary_of (lang : jsstr) : jsval :=
  let d := dictionaries_get lang in
  if truthy d then d else en.

(** [t(key, vars)] when [_currentLang] is [lang]. *)
Definition t (lang : jsstr) (key : jsstr) (vars : option (gmap jsstr jsstr))
  : jsval :=
  let dict := dictionary_of lang in
  let val := pathGet dict key in
  let val :=
    match val with
    | VUndef =>
      let fallback := pathGet en key in
      match fallback with
      | VUndef => VStr key
      | _ => fallback
      end
    | _ => val
    end in
  match val with
  | VStr s => VStr (interpolate s vars)
  | VUndef => VStr key
  | _ => val
  end.

End Host.

(** *** Module state *)

Inductive storage_ref :=
| Supplied          (** the wrapper handed to [initI18n] *)
| SafeLocalStorage.

Record State := {
  _storage : option storage_ref;
  _currentLang : jsstr;
  _listeners : list (callback jsstr);
  (** what the supplied wrapper stores *)
  supplied_store : gmap jsstr jsstr;
  (** [window.localStorage], if there is one *)
  localStorage : option (gmap jsstr jsstr);
  (** [nav.language || nav.languages[0]] when that is a string *)
  navigator_language : option jsstr;
  (** listener invocations so far, oldest first *)
  calls : list (nat * jsstr);
}.

Definition _storageKey : jsstr := js "app:lang".

Definition set_storage (r : option storage_ref) (st : State) : State :=
  {| _storage := r; _currentLang := _currentLang st;
     _listeners := _listeners st; supplied_store := supplied_store st;
     localStorage := localStorage st;
     navigator_language := navigator_language st; calls := calls st |}.

Definition set_currentLang (l : jsstr) (st : State) : State :=
  {| _storage := _storage st; _currentLang := l;
     _listeners := _listeners st; supplied_store := supplied_store st;
     localStorage := localStorage st;
     navigator_language := navigator_language st; calls := calls st |}.

Definition set_listeners (l : list (callback jsstr)) (st : State) : State :=
  {| _storage := _storage st; _currentLang := _currentLang st;
     _listeners := l; supplied_store := supplied_store st;
     localStorage := localStorage st;
     navigator_language := navigator_language st; calls := calls st |}.

Definition log_call (id : nat) (l : jsstr) (st : State) : State :=
  {| _storage := _storage st; _currentLang := _currentLang st;
     _listeners := _listeners st; supplied_store := supplied_store st;
     localStorage := localStorage st;
     navigator_language := navigator_language st;
     calls := calls st ++ [(id, l)] |}.

(** [storage.getItem(key)]; [None] is [null]. *)
Definition getItem (r : storage_ref) (key : jsstr) (st : State) : option jsstr :=
  match r with
  | Supplied => supplied_store st !! key
  | SafeLocalStorage =>
    match localStorage st with
    | Some ls => ls !! key
    | None => None
    end
  end.

(** [storage.setItem(key, value)] *)
Definition setItem (r : storage_ref) (key value : jsstr) (st : State) : State :=
  match r with
  | Supplied =>
    {| _storage := _storage st; _currentLang := _currentLang st;
       _listeners := _listeners st;
       supplied_store := <[key := value]> (supplied_store st);
       localStorage := localStorage st;
       navigator_language := navigator_language st; calls := calls st |}
  | SafeLocalStorage =>
    {| _storage := _storage st; _currentLang := _currentLang st;
       _listeners := _listeners st; supplied_store := supplied_store st;
       localStorage := (fun ls => <[key := value]> ls) <$> localStorage st;
       navigator_language := navigator_language st; calls := calls st |}
  end.

(** [cb(lang)] *)
Definition call (cb : callback jsstr) (lang : jsstr) : M State unit :=
  modify (log_call (cb_id cb) lang) ;; lift (cb_run cb lang).

(** [emitLanguageChange(lang)] *)
Definition emitLanguageChange (lang : jsstr) : M State unit :=
  st ← get;
  for_of (_listeners st) (fun cb => try_catch (call cb lang)).

(** [toLowerCase] on a language tag: the letters A to Z are mapped, other
    code units are kept. *)
Definition toLowerCase (s : jsstr) : jsstr :=
  map (fun c => if (65 <=? c) && (c <=? 90) then c + 32 else c) s.

(** The [try] block of [initI18n] that looks at the browser language. *)
Definition detect_language : M State unit :=
  st ← get;
  match navigator_language st with
  | Some navLang =>
    let short := toLowerCase (slice_to 2 navLang) in
    if truthy (dictionaries_get short)
    then modify (set_currentLang short) else mret tt
  | None => mret tt
  end.

(** [saved && dictionaries[saved]] *)
Definition saved_is_known (saved : option jsstr) : bool :=
  match saved with
  | Some s => negb (is_empty s) && truthy (dictionaries_get s)
  | None => false
  end.

(** [initI18n(storage)]; [wrapper] tells whether [storage] has both
    [getItem] and [setItem]. *)
Definition initI18n (wrapper : bool) : M State unit :=
  let r := if wrapper then Supplied else SafeLocalStorage in
  modify (set_storage (Some r)) ;;
  st ← get;
  let saved := getItem r _storageKey st in
  (if saved_is_known saved
   then modify (set_currentLang (default [] saved))
   else detect_language ;;
        st' ← get;
        modify (setItem r _storageKey (_currentLang st'))) ;;
  st'' ← get;
  emitLanguageChange (_currentLang st'').

(** [setLanguage(lang)] *)
Definition setLanguage (lang : jsstr) : M State unit :=
  if negb (truthy (dictionaries_get lang)) then mret tt
  else
    modify (set_currentLang lang) ;;
    st ← get;
    modify (setItem (default SafeLocalStorage (_storage st)) _storageKey lang) ;;
    emitLanguageChange lang.


(** [onLanguageChange(cb)] *)
Definition onLanguageChange (cb : callback jsstr) : M State unit :=
  st ← get;
  modify (set_listeners (set_add cb (_listeners st))).

(** [offLanguageChange(cb)] *)
Definition offLanguageChange (cb : callback jsstr) : M State unit :=
  st ← get;
  modify (set_listeners (set_delete cb (_listeners st))).

(** The module as loaded. *)
Definition loaded (ls : option (gmap jsstr jsstr)) (store : gmap jsstr jsstr)
           (nav : option jsstr) : State :=
  {| _storage := None; _currentLang := js "en"; _listeners := [];
     supplied_store := store; localStorage := ls;
     navigator_language := nav; calls := [] |}.

(** The language is registered: an own key of [dictionaries]. *)
Definition registered (lang : jsstr) : Prop :=
  ∃ d, (lang, d) ∈ dictionaries.

(** A host whose built-in objects own no properties; it stands in where
    a run never reaches a built-in object. *)
Definition bare_host : jsstr -> jsstr -> option jsval := λ _ _, None.

End Translations.

(* ===================================================================== *)
(** ** [main.js]: from the route to the page *)
(* ===================================================================== *)

Module Main.

Import Router.

Inductive page :=
| HomePage
| StatusPage
| BasicSettingsPage
| AdvancedSettingsPage
| ManagementPage
| ApplicationPage
| NotFoundPage.

(** A call [Page.render(mainRoot, ...)]: the page module and, for the
    application page, the object passed as its parameters. *)
Record render_call := {
  renderer : page;
  render_params : option (gmap jsstr jsstr);
}.

Definition under (p prefix : jsstr) : bool :=
  bool_decide (p = prefix) || startsWith p (prefix ++ js "/").

(** [path.split('/')[2] || 'preferences'] *)
Definition sub_of (p : jsstr) : jsstr :=
  match split (ch "/") p !! 2%nat with
  | Some s => if is_empty s then js "preferences" else s
  | None => js "preferences"
  end.

(** The chain of tests in [renderRoute]. *)
Definition dispatch (route : Route) : render_call :=
  let p := if is_empty (path route) then js "/home" else path route in
  if bool_decide (p = js "/home")
  then {| renderer := HomePage; render_params := None |}
  else if under p (js "/status")
  then {| renderer := StatusPage; render_params := None |}
  else if under p (js "/basic")
  then {| renderer := BasicSettingsPage; render_params := None |}
  else if under p (js "/advanced")
  then {| renderer := AdvancedSettingsPage; render_params := None |}
  else if under p (js "/management")
  then {| renderer := ManagementPage; render_params := None |}
  else if under p (js "/application")
  then {| renderer := ApplicationPage;
          render_params := Some (<[js "sub" := sub_of p]> (params route)) |}
  else {| renderer := NotFoundPage; render_params := None |}.


(** The path is the prefix or lies below it. *)
Definition below (p prefix : jsstr) : Prop :=
  p = prefix ∨ ∃ t, p = prefix ++ js "/" ++ t.

Inductive outcome :=
| NoMainRoot
| Rendered (c : render_call)
| ErrorPlaceholder (c : render_call) (e : exn).

(** [renderRoute()]; [mainRoot] tells whether the main element exists,
    [render] whether a page module returns or throws. *)
Definition renderRoute (mainRoot : bool)
           (render : render_call -> completion unit) : M State outcome :=
  if negb mainRoot then mret NoMainRoot
  else
    route ← getRoute;
    let c := dispatch route in
    match render c with
    | Normal _ => mret (Rendered c)
    | Abrupt e => mret (ErrorPlaceholder c e)
    end.

End Main.

(* ===================================================================== *)
(** ** [utils/storage.js]: the namespaced store *)
(* ===================================================================== *)

Module Storage.

(** The backing store: its entries in insertion order, as the [Map] of
    [memoryStore] keeps them, and whether its methods throw (a supplied
    store may; [memoryStore] does not). *)
Record Store := {
  items : list (jsstr * jsstr);
  failing : bool;
}.

Definition with_items (l : list (jsstr * jsstr)) (s : Store) : Store :=
  {| items := l; failing := failing s |}.

(** [mem.has(key) ? mem.get(key) : null] *)
Fixpoint mem_get (key : jsstr) (l : list (jsstr * jsstr)) : option jsstr :=
  match l with
  | [] => None
  | (k, v) :: rest => if bool_decide (k = key) then Some v else mem_get key rest
  end.

(** [mem.set(key, value)]: an existing key keeps its place. *)
Fixpoint mem_set (key value : jsstr) (l : list (jsstr * jsstr))
  : list (jsstr * jsstr) :=
  match l with
  | [] => [(key, value)]
  | (k, v) :: rest =>
    if bool_decide (k = key) then (k, value) :: rest
    else (k, v) :: mem_set key value rest
  end.

(** [mem.delete(key)] *)
Definition mem_delete (key : jsstr) (l : list (jsstr * jsstr))
  : list (jsstr * jsstr) :=
  List.filter (fun kv => negb (bool_decide (kv.1 = key))) l.

Definition guard {A} (a : A) : M Store A := λ s,
  if failing s then (Abrupt (Thrown 0), s) else (Normal a, s).

(** [store.getItem(key)] *)
Definition getItem (key : jsstr) : M Store (option jsstr) :=
  s ← get; guard (mem_get key (items s)).

(** [store.setItem(key, value)] *)
Definition setItem (key value : jsstr) : M Store unit :=
  guard tt ;; modify (λ s, with_items (mem_set key value (items s)) s).

(** [store.removeItem(key)] *)
Definition removeItem (key : jsstr) : M Store unit :=
  guard tt ;; modify (λ s, with_items (mem_delete key (items s)) s).

(** [store.key(index)] *)
Definition key (index : nat) : M Store (option jsstr) :=
  s ← get; guard (fst <$> items s !! index).

(** [store.length] *)
Definition length_of : M Store nat :=
  s ← get; guard (length (items s)).

(** [try { return c } catch { return fallback }] *)
Definition try_or {A} (c : M Store A) (fallback : A) : M Store A := λ s,
  match c s with
  | (Normal a, s') => (Normal a, s')
  | (Abrupt _, s') => (Normal fallback, s')
  end.

(** [withNamespace(ns, key)] *)
Definition withNamespace (ns key : jsstr) : jsstr := ns ++ js ":" ++ key.

Section Namespace.

(** [createStorage(namespace, backingStore)]: the methods of the object
    it returns. *)
Variable namespace : jsstr.

(** [get(key, defaultValue)]; [None] is [null]. *)
Definition get_ (k : jsstr) (defaultValue : option jsstr)
  : M Store (option jsstr) :=
  try_or (v ← getItem (withNamespace namespace k);
          mret (match v with
                | None => defaultValue
                | Some x => Some x
                end))
         defaultValue.

(** [set(key, value)] *)
Definition set (k value : jsstr) : M Store bool :=
  try_or (setItem (withNamespace namespace k) value ;; mret true) false.

(** [remove(key)] *)
Definition remove (k : jsstr) : M Store bool :=
  try_or (removeItem (withNamespace namespace k) ;; mret true) false.

(** The loop of [keys]: indices [i], [i + 1], ... below [len], with the
    keys found so far in [out]; a throw ends it with what [out] holds. *)
Fixpoint keys_loop (n i : nat) (out : list jsstr) : M Store (list jsstr) :=
  match n with
  | O => mret out
  | S n' =>
    try_or (k ← key i;
            match k with
            | Some x =>
              if negb (is_empty x) && startsWith x (namespace ++ js ":")
              then keys_loop n' (S i)
                     (out ++ [slice_from (length namespace + 1) x])
              else keys_loop n' (S i) out
            | None => keys_loop n' (S i) out
            end)
           out
  end.

(** [keys()] *)
Definition keys : M Store (list jsstr) :=
  try_or (len ← length_of; keys_loop len 0 []) [].

(** [clearAll()] *)
Definition clearAll : M Store unit :=
  ks ← keys;
  for_of ks (λ k, remove k ;; mret tt).

End Namespace.

End Storage.

(* ===================================================================== *)
(** ** [components/sidebar.js]: the active item *)
(* ===================================================================== *)

Module Sidebar.

(** [isPathActive(itemPath, routePath)] *)
Definition isPathActive (itemPath routePath : jsstr) : bool :=
  if is_empty itemPath || is_empty routePath then false
  else bool_decide (routePath = itemPath)
       || startsWith routePath (itemPath ++ js "/").

End Sidebar.

(* ===================================================================== *)
(** ** [pages/application.js]: the sub-view and its escaping *)
(* ===================================================================== *)

Module Application.

(** [s.replaceAll(c, rep)] for a one-character [c] and a replacement
    without dollar signs. *)
Definition replaceAll (c : N) (rep : jsstr) (s : jsstr) : jsstr :=
  concat (map (λ x, if x =? c then rep else [x]) s).

(** The code unit of the double quote. *)
Definition quot : N := 34.

(** [escapeHtml(str)] *)
Definition escapeHtml (s : jsstr) : jsstr :=
  replaceAll (ch "'") (js "&#039;")
    (replaceAll quot (js "&quot;")
       (replaceAll (ch ">") (js "&gt;")
          (replaceAll (ch "<") (js "&lt;")
             (replaceAll (ch "&") (js "&amp;") s)))).

(** The sub-view [render] settles on: [params.sub], else what follows
    ["/application/"] in the location fragment, else ["preferences"].
    [hash] is [globalThis.location.hash] where there is a location. *)
Definition chosen_sub (params : gmap jsstr jsstr) (hash : option jsstr) : jsstr :=
  let sub := default [] (params !! js "sub") in
  let sub :=
    if is_empty sub then
      match hash with
      | Some h =>
        if is_empty h then sub
        else
          let p := if startsWith h (js "#") then slice_from 1 h else h in
          if startsWith p (js "/application/")
          then slice_from (length (js "/application/")) p
          else sub
      | None => sub
      end
    else sub in
  if is_empty sub then js "preferences" else sub.

End Application.

(* ===================================================================== *)
(** ** [main.js]: the storage adapter handed to [initI18n] *)
(* ===================================================================== *)

Module Adapter.

(** [s.replace(pat, '')] for a string pattern: the first occurrence goes. *)
Fixpoint remove_first (pat s : jsstr) : jsstr :=
  if startsWith s pat then slice_from (length pat) s
  else match s with
       | [] => []
       | c :: r => c :: remove_first pat r
       end.

(** [getItem: (k) => storage.get(k.replace('app:', ''), null)] with
    [storage = createStorage('app')]. *)
Definition getItem (k : jsstr) : M Storage.Store (option jsstr) :=
  Storage.get_ (js "app") (remove_first (js "app:") k) None.

(** [setItem: (k, v) => storage.set(k.replace('app:', ''), v)] *)
Definition setItem (k v : jsstr) : M Storage.Store bool :=
  Storage.set (js "app") (remove_first (js "app:") k) v.

End Adapter.

(* ===================================================================== *)
(** ** When the language can be persisted *)
(* ===================================================================== *)

Module Persistence.

Import Translations.



End Persistence.

(* ===================================================================== *)
(** ** Inverse operations, used to state round trips *)
(* ===================================================================== *)

Module Inverse.

(** [pieces.join(sep)] for a one-character separator. *)
Fixpoint join (sep : N) (pieces : list jsstr) : jsstr :=
  match pieces with
  | [] => []
  | p :: rest =>
    match rest with
    | [] => p
    | _ :: _ => p ++ sep :: join sep rest
    end
  end.

(** The path with the given segments: ['/' + segments.join('/')]. *)
Definition path_of_segments (segs : list jsstr) : jsstr :=
  js "/" ++ join (ch "/") segs.

(** The query [k1=v1&k2=v2...] for the given pairs. *)
Definition query_string (pairs : list (jsstr * jsstr)) : jsstr :=
  join (ch "&") (map (λ kv, kv.1 ++ js "=" ++ kv.2) pairs).

(** The object the pairs describe when assigned in order. *)
Definition object_of (pairs : list (jsstr * jsstr)) : gmap jsstr jsstr :=
  foldl (λ m kv, <[kv.1 := kv.2]> m) ∅ pairs.

(** What [parseParams] can read back unchanged: a non-empty key other
    than [__proto__], and neither escapes nor separators. *)
Definition plain_pair (kv : jsstr * jsstr) : Prop :=
  let k := fst kv in
  let v := snd kv in
  k ≠ [] ∧ k ≠ js "__proto__"
  ∧ (ch "%" ∉ k) ∧ (ch "&" ∉ k) ∧ (ch "=" ∉ k)
  ∧ (ch "%" ∉ v) ∧ (ch "&" ∉ v).

End Inverse.

(* ===================================================================== *)
(** ** Properties *)
(* ===================================================================== *)

Module JsFacts.

Example js_literal : js "a/é" = [97; 47; 233].
Proof. reflexivity. Qed.

Example decode_plain :
  decodeURIComponent (js "wi%2Ffi%20x") = Normal (js "wi/fi x").
Proof. reflexivity. Qed.

Example decode_utf8 :
  decodeURIComponent (js "%C3%A9%E2%82%AC%F0%9F%98%80") = Normal (js "é€😀").
Proof. reflexivity. Qed.

Example decode_bad_hex : decodeURIComponent (js "%zz") = Abrupt URIError.
Proof. reflexivity. Qed.

Example decode_truncated : decodeURIComponent (js "abc%2") = Abrupt URIError.
Proof. reflexivity. Qed.

Example decode_overlong : decodeURIComponent (js "%C0%80") = Abrupt URIError.
Proof. reflexivity. Qed.

Example decode_surrogate : decodeURIComponent (js "%ED%A0%80") = Abrupt URIError.
Proof. reflexivity. Qed.

Lemma has_double_slash_infix (s : jsstr) :
  has_double_slash s = true ↔ ∃ l1 l2, s = l1 ++ js "//" ++ l2.
Proof.
  change (js "//") with [47; 47].
  induction s as [|a [|b r] IH]; simpl.
  - split; [done|]. intros (l1 & l2 & H). by destruct l1.
  - split; [done|]. intros (l1 & l2 & H). by destruct l1 as [|? [|? ?]].
  - rewrite orb_true_iff, andb_true_iff, !N.eqb_eq, IH. split.
    + intros [[-> ->] | (l1 & l2 & ->)].
      * by exists [], r.
      * by exists (a :: l1), l2.
    + intros (l1 & l2 & H). destruct l1 as [|x l1]; simplify_eq/=.
      * by left.
      * right. by exists l1, l2.
Qed.

Lemma has_double_slash_app_l (l1 l2 : jsstr) :
  has_double_slash (l1 ++ l2) = false → has_double_slash l1 = false.
Proof.
  intros H. apply not_true_is_false. intros H1.
  apply has_double_slash_infix in H1 as (a & b & ->).
  assert (has_double_slash ((a ++ js "//" ++ b) ++ l2) = true) as H2.
  { apply has_double_slash_infix. exists a, (b ++ l2).
    by rewrite <- !app_assoc. }
  congruence.
Qed.

Lemma collapse_slashes_head (a : N) (r : jsstr) :
  ∃ r', collapse_slashes (a :: r) = a :: r'.
Proof.
  revert a. induction r as [|b r IH]; intros a; [by eexists|].
  change (collapse_slashes (a :: b :: r))
    with (if (a =? ch "/") && (b =? ch "/") then collapse_slashes (b :: r)
          else a :: collapse_slashes (b :: r)).
  destruct (N.eqb_spec a (ch "/")) as [->|]; simpl; [|by eexists].
  destruct (N.eqb_spec b (ch "/")) as [->|]; simpl; [|by eexists].
  apply IH.
Qed.

Lemma collapse_slashes_no_double (s : jsstr) :
  has_double_slash (collapse_slashes s) = false.
Proof.
  induction s as [|a [|b r] IH]; [done..|].
  change (collapse_slashes (a :: b :: r))
    with (if (a =? ch "/") && (b =? ch "/") then collapse_slashes (b :: r)
          else a :: collapse_slashes (b :: r)).
  destruct ((a =? ch "/") && (b =? ch "/")) eqn:E; [done|].
  destruct (collapse_slashes_head b r) as [r' Hr'].
  rewrite Hr' in IH |- *. simpl in IH |- *.
  rewrite orb_false_iff. split; [|done].
  exact E.
Qed.

Lemma split_head_prefix (c : N) (s : jsstr) :
  ∃ rest, s = hd [] (split c s) ++ rest.
Proof.
  induction s as [|x r [rest IH]]; simpl; [by exists []|].
  destruct (x =? c); simpl; [by eexists|].
  destruct (split c r) as [|h t]; simpl in *.
  - exists r. done.
  - exists rest. by rewrite IH at 1.
Qed.

Lemma split_head_cons (c x : N) (r : jsstr) :
  x ≠ c → ∃ h, hd [] (split c (x :: r)) = x :: h.
Proof.
  intros Hx. simpl. destruct (N.eqb_spec x c); [done|].
  destruct (split c r); simpl; by eexists.
Qed.

Lemma endsWith_slash (s : jsstr) :
  endsWith s (js "/") = true ↔ ∃ l, s = l ++ [47].
Proof.
  unfold endsWith. change (rev (js "/")) with [47].
  destruct (rev s) as [|x l] eqn:E; simpl.
  - apply (f_equal (@rev N)) in E. rewrite rev_involutive in E. subst s.
    split; [done|]. intros [l H]. by destruct l.
  - apply (f_equal (@rev N)) in E. rewrite rev_involutive in E. subst s.
    simpl. rewrite andb_true_r, N.eqb_eq. split.
    + intros ->. by eexists.
    + intros [l' Hl]. by apply app_inj_tail in Hl as [_ ->].
Qed.

Lemma slice_but_last_snoc (l : jsstr) (x : N) :
  slice_but_last (l ++ [x]) = l.
Proof.
  unfold slice_but_last. rewrite length_app. simpl.
  replace (length l + 1 - 1)%nat with (length l) by lia.
  by rewrite take_app_length.
Qed.

Lemma startsWith_prefix (s p : jsstr) :
  startsWith s p = true ↔ ∃ t, s = p ++ t.
Proof.
  revert s. induction p as [|a p IH]; intros s; simpl.
  - split; [by exists s|done].
  - destruct s as [|b s]; [split; [done|by intros [? ?]]|].
    rewrite andb_true_iff, N.eqb_eq, IH. split.
    + intros [-> [t ->]]. by exists t.
    + intros [t Ht]. simplify_eq. split; [done|by exists t].
Qed.


Lemma split_head_no_sep (c : N) (s : jsstr) : c ∉ hd [] (split c s).
Proof.
  induction s as [|x r IH]; simpl; [apply not_elem_of_nil|].
  destruct (N.eqb_spec x c) as [->|Hx]; simpl; [apply not_elem_of_nil|].
  destruct (split c r) as [|h t]; simpl in *.
  - rewrite not_elem_of_cons. split; [done|apply not_elem_of_nil].
  - rewrite not_elem_of_cons. done.
Qed.

(** *** [decodeURIComponent]: the fuel is enough *)

Lemma hex_octet_length (s r : jsstr) (b : N) :
  hex_octet s = Some (b, r) → length s = S (S (length r)).
Proof.
  destruct s as [|h1 [|h2 s']]; simpl; [done..|].
  destruct (hex_digit h1), (hex_digit h2); intros; by simplify_eq.
Qed.

Lemma continuation_length (k : nat) (s r : jsstr) (bs : list N) :
  continuation k s = Some (bs, r) → (length r ≤ length s)%nat.
Proof.
  revert s bs. induction k as [|k IH]; intros s bs; simpl.
  - intros. by simplify_eq.
  - destruct s as [|c s']; [done|]. destruct (c =? ch "%"); [|done].
    destruct (hex_octet s') as [[b r']|] eqn:Eh; [|done].
    destruct (continuation k r') as [[bs' r'']|] eqn:Ec; [|done].
    intros. simplify_eq. apply hex_octet_length in Eh. apply IH in Ec.
    simpl. lia.
Qed.

(** [decode] gives the same result with any fuel that covers the input,
    so [decodeURIComponent] never stops for lack of it. *)
Lemma decode_fuel (f1 f2 : nat) (s : jsstr) :
  (length s ≤ f1)%nat → (length s ≤ f2)%nat → decode f1 s = decode f2 s.
Proof.
  revert f2 s. induction f1 as [|f1 IH]; intros f2 s H1 H2.
  { destruct s; [|simpl in H1; lia]. by destruct f2. }
  destruct s as [|c r]; [by destruct f2|].
  destruct f2 as [|f2]; [simpl in H2; lia|].
  simpl in H1, H2. simpl.
  destruct (c =? ch "%").
  - destruct (hex_octet r) as [[b r1]|] eqn:Eh; [|done].
    apply hex_octet_length in Eh.
    destruct (b <? 128).
    + rewrite (IH f2 r1) by lia. done.
    + destruct ((leading_ones b =? 1)%nat || (4 <? leading_ones b)%nat); [done|].
      destruct (continuation (leading_ones b - 1) r1) as [[octets r2]|] eqn:Ec;
        [|done].
      apply continuation_length in Ec.
      destruct (utf8_code_point b octets); [|done].
      rewrite (IH f2 r2) by lia. done.
  - rewrite (IH f2 r) by lia. done.
Qed.

(** Without a percent sign there is nothing to decode. *)
Lemma decode_no_percent (s : jsstr) :
  ch "%" ∉ s → decodeURIComponent s = Normal s.
Proof.
  unfold decodeURIComponent. induction s as [|c r IH]; [done|].
  rewrite not_elem_of_cons. intros [Hc Hr]. simpl.
  destruct (N.eqb_spec c (ch "%")); [done|].
  by rewrite (IH Hr).
Qed.

Lemma elem_of_split_piece (c x : N) (s piece : jsstr) :
  piece ∈ split c s → x ∈ piece → x ∈ s.
Proof.
  revert piece. induction s as [|y r IH]; intros piece; simpl.
  - intros ->%list_elem_of_singleton. by intros ?%elem_of_nil.
  - destruct (y =? c).
    + rewrite elem_of_cons. intros [->|Hin] Hx; [by apply elem_of_nil in Hx|].
      apply elem_of_cons. right. by eapply IH.
    + destruct (split c r) as [|h t] eqn:E.
      * intros ->%list_elem_of_singleton Hx.
        apply list_elem_of_singleton in Hx as ->. apply elem_of_cons. by left.
      * rewrite elem_of_cons. intros [->|Hin] Hx.
        -- apply elem_of_cons in Hx as [->|Hx]; apply elem_of_cons; [by left|].
           right. apply (IH h); [|done]. apply elem_of_cons. by left.
        -- apply elem_of_cons. right. apply (IH piece); [|done].
           apply elem_of_cons. by right.
Qed.

(** A loop that calls every element inside [try]/[catch] completes
    normally, whatever the calls do, and has gone through all of them. *)
Lemma for_of_try_catch {S A} (xs : list A) (log : A → S → S)
      (run : A → completion unit) (st : S) :
  for_of xs (λ x, try_catch (modify (log x) ;; lift (run x))) st
  = (Normal tt, foldl (λ s x, log x s) st xs).
Proof.
  revert st. induction xs as [|x xs IH]; intros st; [done|].
  simpl. unfold mbind, M_bind at 1. unfold try_catch at 1.
  unfold mbind, M_bind at 1. unfold modify at 1, lift at 1.
  destruct (run x); apply IH.
Qed.

End JsFacts.

Module RouterFacts.

Import Router JsFacts.

Example normalize_hash :
  normalizePath (js "  #!//basic///network/?tab=wifi ") = js "/basic/network".
Proof. reflexivity. Qed.

Example normalize_empty : normalizePath [] = js "/".
Proof. reflexivity. Qed.

Example params_wifi :
  parseParams (js "#/basic/network?tab=wifi&x&=y&__proto__=z&a=%41")
  = Normal (<[js "a" := js "A"]> (<[js "x" := []]> (<[js "tab" := js "wifi"]> ∅))).
Proof. vm_compute. reflexivity. Qed.

Example segments_two :
  toSegments (js "/basic/network") = [js "basic"; js "network"].
Proof. reflexivity. Qed.

Example allowed_nested : isAllowedRoute (js "/basic/network") = true.
Proof. reflexivity. Qed.

Example allowed_not_prefix : isAllowedRoute (js "/homepage") = false.
Proof. reflexivity. Qed.

(** The string [normalizePath] splits at the question mark: it starts
    with a slash and has no two slashes in a row. *)
Lemma before_split (raw : jsstr) :
  let s := trim raw in
  let s := if startsWith s (js "#") then slice_from 1 s else s in
  let s := if startsWith s (js "!") then slice_from 1 s else s in
  let s := if startsWith s (js "/") then s else js "/" ++ s in
  ∃ r, collapse_slashes s = 47 :: r
       ∧ has_double_slash (collapse_slashes s) = false.
Proof.
  intros s0 s1 s2 s3.
  assert (∃ u, s3 = 47 :: u) as [u Hu].
  { subst s3. destruct (startsWith s2 (js "/")) eqn:E; [|by eexists].
    destruct s2 as [|x u]; [done|]. simpl in E.
    apply andb_true_iff in E as [E _]. apply N.eqb_eq in E. subst x.
    by eexists. }
  rewrite Hu. destruct (collapse_slashes_head 47 u) as [r Hr].
  exists r. split; [done|]. apply collapse_slashes_no_double.
Qed.

(** What [normalizePath] returns, in terms of the tests above. *)
Lemma normalizePath_form (raw : jsstr) :
  ∃ r, normalizePath raw = 47 :: r
       ∧ has_double_slash (47 :: r) = false
       ∧ (endsWith (47 :: r) (js "/") = true → r = []).
Proof.
  unfold normalizePath. destruct (before_split raw) as (r & Hs & Hd).
  simpl in Hs, Hd. change (js "/") with [47] in *.
  set (s := collapse_slashes _) in *. clearbody s. subst s.
  destruct (split_head_cons (ch "?") 47 r) as [h Hh]; [done|].
  destruct (split_head_prefix (ch "?") (47 :: r)) as [rest Hrest].
  rewrite Hh in *. rewrite Hrest in Hd.
  apply has_double_slash_app_l in Hd. clear Hrest Hh r rest.
  destruct ((1 <? length (47%N :: h))%nat && endsWith (47 :: h) [47]) eqn:C.
  - apply andb_true_iff in C as [Hlen He].
    apply (endsWith_slash (47 :: h)) in He as [l Hl].
    rewrite Hl, slice_but_last_snoc. rewrite Hl in Hd, Hlen.
    destruct l as [|x l]; [done|].
    injection Hl as <- _. simpl. exists l. split; [done|]. split.
    + by apply has_double_slash_app_l in Hd.
    + intros He. exfalso. apply (endsWith_slash (47 :: l)) in He as [l' Hl'].
      rewrite Hl' in Hd.
      assert (has_double_slash ((l' ++ [47]) ++ [47]) = true) as H.
      { apply has_double_slash_infix. exists l', [].
        change (js "//") with [47; 47]. by rewrite <- app_assoc. }
      congruence.
  - simpl. exists h. split; [done|]. split; [done|].
    intros He. apply andb_false_iff in C as [C|C]; [|congruence].
    destruct h; [done|]. simpl in C. done.
Qed.

(** C6: for every raw fragment, [normalizePath] returns a path that
    starts with a slash, contains no two slashes in a row, and ends with
    a slash only when it is the root path. *)
Theorem normalizePath_shape (raw : jsstr) :
  (∃ r, normalizePath raw = js "/" ++ r)
  ∧ (¬ ∃ l1 l2, normalizePath raw = l1 ++ js "//" ++ l2)
  ∧ (∀ l, normalizePath raw = l ++ js "/" → normalizePath raw = js "/").
Proof.
  destruct (normalizePath_form raw) as (r & -> & Hd & Hend).
  split; [by exists r|]. split.
  - intros H. apply has_double_slash_infix in H. congruence.
  - intros l Hl. rewrite Hend; [done|].
    apply endsWith_slash. by exists l.
Qed.

(** *** The whitelist test *)

Lemma whitelist_entries_long (base : jsstr) :
  base ∈ ROUTE_WHITELIST → ∃ a b r, base = a :: b :: r.
Proof.
  unfold ROUTE_WHITELIST. rewrite !elem_of_cons, elem_of_nil.
  intros [->|[->|[->|[->|[->|[->|[]]]]]]]; by eexists _, _, _.
Qed.

(** [isAllowedRoute] decides [allowed]; the root and the empty path are
    never allowed. *)
Lemma isAllowedRoute_spec (p : jsstr) : isAllowedRoute p = true ↔ allowed p.
Proof.
  unfold isAllowedRoute, allowed. split.
  - destruct (bool_decide (p = js "/") || is_empty p); [done|].
    rewrite existsb_exists. intros (base & Hin & H).
    exists base. rewrite list_elem_of_In. split; [done|].
    apply orb_true_iff in H as [H|H].
    + left. by apply bool_decide_eq_true in H.
    + right. apply startsWith_prefix in H as [t ->].
      exists t. by rewrite <- app_assoc.
  - intros (base & Hin & H).
    destruct (whitelist_entries_long base Hin) as (a & b & r & Hb).
    assert (bool_decide (p = js "/") || is_empty p = false) as ->.
    { destruct H as [->|[t ->]]; subst base; simpl;
        rewrite orb_false_r; by apply bool_decide_eq_false. }
    rewrite existsb_exists. exists base.
    rewrite <- list_elem_of_In. split; [done|].
    apply orb_true_iff. destruct H as [->|[t ->]].
    + left. by apply bool_decide_eq_true.
    + right. apply startsWith_prefix. exists t. by rewrite <- app_assoc.
Qed.

Lemma root_not_allowed : ¬ allowed (js "/").
Proof. by rewrite <- isAllowedRoute_spec. Qed.

(** *** Running the listeners *)

Lemma foldl_log_call (r : Route) (l : list (callback Route)) (st : State) :
  foldl (λ s cb, log_call (cb_id cb) r s) st l
  = {| _defaultRoute := _defaultRoute st; _listeners := _listeners st;
       _currentRoute := _currentRoute st;
       _isInitialized := _isInitialized st;
       _debounceTimer := _debounceTimer st; win := win st;
       calls := calls st ++ map (λ cb, (cb_id cb, r)) l |}.
Proof.
  revert st. induction l as [|cb l IH]; intros st; simpl.
  - rewrite app_nil_r. by destruct st.
  - rewrite IH. simpl. by rewrite <- app_assoc.
Qed.

(** [emit] sets the current route, calls every listener with it and
    completes normally. *)
Lemma emit_run (r : Route) (st : State) :
  emit r st
  = (Normal tt,
     {| _defaultRoute := _defaultRoute st; _listeners := _listeners st;
        _currentRoute := Some r; _isInitialized := _isInitialized st;
        _debounceTimer := _debounceTimer st; win := win st;
        calls := calls st ++ map (λ cb, (cb_id cb, r)) (_listeners st) |}).
Proof.
  cbv [emit mbind M_bind modify get]. unfold call.
  rewrite (for_of_try_catch (_listeners st) (λ cb, log_call (cb_id cb) r)
             (λ cb, cb_run cb r)).
  by rewrite foldl_log_call.
Qed.

(** *** The invariant of the router state *)

Lemma inv_same (st st' : State) :
  _currentRoute st' = _currentRoute st → calls st' = calls st →
  inv st → inv st'.
Proof. unfold inv. by intros -> ->. Qed.

Lemma inv_navigate (p : jsstr) (replace silent : bool) (st : State) :
  inv st → inv (navigate p replace silent st).2.
Proof.
  cbv [navigate mbind M_bind get mret M_ret modify
       debouncedHandleRouteChange].
  destruct (win st) as [w|]; [|done].
  destruct silent; simpl; by apply inv_same.
Qed.

Lemma inv_handleRouteChange (st : State) :
  inv st → inv (handleRouteChange st).2.
Proof.
  intros Hinv. cbv [handleRouteChange buildRouteFrom mbind M_bind get lift].
  destruct (route_of _) as [route|e]; [|done].
  destruct (isAllowedRoute (path route)) eqn:Ha; simpl.
  - rewrite emit_run. simpl. destruct Hinv as [_ Hc]. split; simpl.
    + by apply isAllowedRoute_spec.
    + apply Forall_app. split; [done|].
      apply Forall_forall. intros c Hin.
      apply list_elem_of_fmap in Hin as (cb & -> & _).
      by apply isAllowedRoute_spec.
  - by apply inv_navigate.
Qed.

Lemma inv_initRouter (options : Options) (st : State) :
  inv st → inv (initRouter options st).2.
Proof.
  intros Hinv. cbv [initRouter mbind M_bind get].
  assert (∀ s, inv s → inv (update_defaultRoute options s).2) as Hupd.
  { intros s Hs. unfold update_defaultRoute.
    destruct (opt_defaultRoute options) as [d|]; [|done].
    destruct (is_empty d); [done|]. by apply (inv_same s). }
  assert (∀ s, (update_defaultRoute options s).1 = Normal tt) as Hok.
  { intros s. unfold update_defaultRoute.
    destruct (opt_defaultRoute options) as [d|]; [|done].
    by destruct (is_empty d). }
  destruct (_isInitialized st).
  - specialize (Hupd st Hinv). specialize (Hok st).
    destruct (update_defaultRoute options st) as [c s]. simpl in *. subst c.
    destruct (opt_onRouteChange options) as [cb|]; [|done].
    cbv [onRouteChange mbind M_bind get modify]. simpl.
    destruct (_currentRoute s) as [r|] eqn:Hr; [|by apply (inv_same s)].
    cbv [try_catch call mbind M_bind modify lift].
    assert (inv (log_call (cb_id cb) r
                   (set_listeners (set_add cb (_listeners s)) s))).
    { destruct Hupd as [H1 H2]. rewrite Hr in H1. split; simpl.
      - by rewrite Hr.
      - apply Forall_app. split; [done|]. by apply Forall_singleton. }
    by destruct (cb_run cb r).
  - cbv [modify].
    assert (inv (set_isInitialized true st)) as H0 by by apply (inv_same st).
    specialize (Hupd _ H0). specialize (Hok (set_isInitialized true st)).
    destruct (update_defaultRoute options _) as [c s]. simpl in *. subst c.
    cbv [debouncedHandleRouteChange onRouteChange mbind M_bind mret M_ret
         get modify].
    destruct (opt_onRouteChange options) as [cb|]; simpl;
      destruct (win s); simpl; by apply (inv_same s).
Qed.

Lemma inv_after (e : event) (st : State) : inv st → inv (after e st).
Proof.
  intros Hinv. unfold after. destruct e as [options|p rep sil|cb|cb| |h]; simpl.
  - by apply inv_initRouter.
  - by apply inv_navigate.
  - by apply (inv_same st).
  - by apply (inv_same st).
  - cbv [timer_expires mbind M_bind get modify].
    destruct (_debounceTimer st); [|done].
    apply inv_handleRouteChange. by apply (inv_same st).
  - cbv [hash_changes mbind M_bind mret M_ret get modify
         debouncedHandleRouteChange].
    destruct (win st) as [w|]; [|done].
    destruct (hashchange_bound w); simpl; by apply (inv_same st).
Qed.

(** C2: in every reachable state of the router the stored current route
    is absent or allowed, and every route handed to a listener so far was
    allowed. *)
Theorem current_route_allowed (st : State) :
  reachable st →
  match _currentRoute st with
  | Some r => allowed (path r)
  | None => True
  end
  ∧ Forall (λ c, allowed (path c.2)) (calls st).
Proof.
  change (reachable st → inv st).
  induction 1 as [h|e st _ IH].
  - split; [done|]. apply Forall_nil_2.
  - by apply inv_after.
Qed.

Lemma current_route_allowed_witness :
  let st := after TimerExpires
              (after (HashChanges (js "#/status/lan"))
                 (after (InitRouter home_options) (loaded (Some [])))) in
  reachable st
  ∧ (path <$> _currentRoute st = Some (js "/status/lan"))
  ∧ match _currentRoute st with
    | Some r => allowed (path r)
    | None => True
    end
  ∧ Forall (λ c, allowed (path c.2)) (calls st).
Proof.
  intros st.
  assert (reachable st) as Hr by (do 3 apply reachable_after; apply reachable_loaded).
  split; [exact Hr|]. split; [reflexivity|].
  exact (current_route_allowed st Hr).
Defined.

(** *** Malformed escapes *)

(** C1 (the code departs from the claim): a fragment whose query holds a
    malformed percent escape makes [parseParams] throw [URIError]; so
    does building the route, [getRoute] before the first resolution and
    the resolution itself, which leaves the router without a current
    route and without a redirect. *)
Theorem malformed_escape_throws :
  parseParams (js "#/home?%zz") = Abrupt URIError
  ∧ route_of (js "#/home?%zz") = Abrupt URIError
  ∧ (getRoute (loaded (Some (js "#/home?%zz")))).1 = Abrupt URIError
  ∧ let st := after (HashChanges (js "#/home?%zz"))
                (after (InitRouter home_options) (loaded (Some []))) in
    (handle TimerExpires st).1 = Abrupt URIError
    ∧ _currentRoute (after TimerExpires st) = None
    ∧ _debounceTimer (after TimerExpires st) = false
    ∧ current_hash (after TimerExpires st) = js "#/home?%zz".
Proof. repeat split; reflexivity. Qed.

(** Only percent escapes can make the parameters fail: a fragment without
    a percent sign always yields a route. *)
Lemma parse_parts_no_percent (parts : list jsstr) (out : gmap jsstr jsstr) :
  Forall (λ part, ch "%" ∉ part) parts → ∃ m, parse_parts out parts = Normal m.
Proof.
  intros H. revert out. induction H as [|part rest Hp _ IH]; intros out.
  { by eexists. }
  simpl. unfold parse_part at 1.
  assert (∀ n, ch "%" ∉ slice_to n part) as Ht.
  { intros n Hin. apply Hp. eapply elem_of_sublist; [exact Hin|apply sublist_take]. }
  assert (∀ n, ch "%" ∉ slice_from n part) as Hf.
  { intros n Hin. apply Hp. eapply elem_of_sublist; [exact Hin|apply sublist_drop]. }
  destruct (is_empty part); [apply IH|].
  destruct (indexOf (ch "=") part) as [eq|].
  - rewrite (decode_no_percent _ (Ht eq)), (decode_no_percent _ (Hf (S eq))).
    apply IH.
  - rewrite (decode_no_percent _ Hp). apply IH.
Qed.

Lemma route_of_no_percent (raw : jsstr) :
  ch "%" ∉ raw → ∃ r, route_of raw = Normal r ∧ path r = normalizePath raw.
Proof.
  intros H. unfold route_of.
  assert (∃ m, parseParams raw = Normal m) as [m ->]; [|by eexists].
  unfold parseParams. destruct (is_empty raw); [by eexists|].
  destruct (indexOf (ch "?") raw) as [idx|]; [|by eexists].
  destruct (is_empty (slice_from (S idx) raw)); [by eexists|].
  apply parse_parts_no_percent, Forall_forall. intros part Hin Hx.
  apply H. eapply elem_of_sublist; [|apply (sublist_drop _ (S idx))].
  by eapply elem_of_split_piece.
Qed.


Lemma normalizePath_no_query (raw : jsstr) : ch "?" ∉ normalizePath raw.
Proof.
  unfold normalizePath.
  set (s := collapse_slashes _). clearbody s.
  pose proof (split_head_no_sep (ch "?") s) as H.
  set (onlyPath := hd [] (split (ch "?") s)) in *. clearbody onlyPath.
  assert (ch "?" ∉ slice_but_last onlyPath) as H'.
  { unfold slice_but_last. intros Hin. apply H.
    eapply elem_of_sublist; [exact Hin|apply sublist_take]. }
  assert (ch "?" ∉ js "/") as Hroot.
  { change (js "/") with [47]. change (ch "?") with 63.
    by intros ?%list_elem_of_singleton. }
  destruct ((1 <? length onlyPath)%nat && endsWith onlyPath (js "/")).
  - by destruct (is_empty (slice_but_last onlyPath)).
  - by destruct (is_empty onlyPath).
Qed.


(** *** Before the first resolution *)

(** C10: while no route has been resolved, [getRoute] returns the parse
    of the current fragment without consulting the whitelist; for an
    empty fragment that is the root route, which is not allowed. *)
Theorem getRoute_before_resolution (st : State) :
  _currentRoute st = None →
  getRoute st = (route_of (current_hash st), st)
  ∧ (current_hash st = [] →
     (getRoute st).1 = Normal {| path := js "/"; segments := []; params := ∅ |})
  ∧ ¬ allowed (js "/").
Proof.
  intros Hc.
  assert (getRoute st = (route_of (current_hash st), st)) as Hg.
  { cbv [getRoute buildRouteFrom mbind M_bind get lift]. rewrite Hc.
    by destruct (is_empty (current_hash st)). }
  split; [done|]. split; [|apply root_not_allowed].
  intros Hh. by rewrite Hg, Hh.
Qed.

Lemma getRoute_before_resolution_witness :
  _currentRoute (loaded (Some [])) = None
  ∧ (getRoute (loaded (Some []))).1
    = Normal {| path := js "/"; segments := []; params := ∅ |}
  ∧ ¬ allowed (js "/").
Proof.
  split; [reflexivity|].
  destruct (getRoute_before_resolution (loaded (Some [])) eq_refl)
    as (_ & H & Hn).
  split; [exact (H eq_refl)|exact Hn].
Defined.

(** *** Programmatic navigation *)

(** C3 (the code departs from the claim): [navigate] writes the
    normalized path only, so after [navigate("/basic/network?tab=wifi")]
    has settled the current route has the path and the segments of the
    scenario but no parameters. *)
Theorem navigate_drops_query :
  let st := settle 1 (after (Navigate (js "/basic/network?tab=wifi") false false)
                        (after (InitRouter home_options) (loaded (Some [])))) in
  _debounceTimer st = false
  ∧ current_hash st = js "#/basic/network"
  ∧ (getRoute st).1
    = Normal {| path := js "/basic/network";
                segments := [js "basic"; js "network"];
                params := ∅ |}.
Proof. repeat split; reflexivity. Qed.

(** The same fragment with its query, set from outside, does give the
    parameter. *)
Lemma hash_change_keeps_query :
  let st := settle 1 (after (HashChanges (js "#/basic/network?tab=wifi"))
                        (after (InitRouter home_options) (loaded (Some [])))) in
  (getRoute st).1
  = Normal {| path := js "/basic/network";
              segments := [js "basic"; js "network"];
              params := <[js "tab" := js "wifi"]> ∅ |}.
Proof. vm_compute. reflexivity. Qed.

(** *** Redirects *)


(** Outside a browser [navigate] does nothing. *)
Lemma navigate_without_window (p : jsstr) (replace silent : bool) (st : State) :
  win st = None → navigate p replace silent st = (Normal tt, st).
Proof.
  intros Hw. cbv [navigate mbind M_bind get mret M_ret]. by rewrite Hw.
Qed.

Lemma timer_expires_run (st : State) :
  _debounceTimer st = true →
  timer_expires st = handleRouteChange (set_debounceTimer false st).
Proof.
  intros Ht. cbv [timer_expires mbind M_bind get modify]. by rewrite Ht.
Qed.






End RouterFacts.

Module TranslationsFacts.

Import Translations JsFacts.

Example lookup_spanish :
  t bare_host (js "es") (js "pages.notFound.title") None
  = str "Página No Encontrada".
Proof. reflexivity. Qed.

Example lookup_missing : t bare_host (js "es") (js "nope.x") None = str "nope.x".
Proof. reflexivity. Qed.

Example lookup_length : t bare_host (js "en") (js "app.title.length") None = VNum 14.
Proof. reflexivity. Qed.

Example interpolate_name :
  interpolate (js "Hello, {name}! {x} {} {a b} {y")
              (Some (<[js "name" := js "John"]> ∅))
  = js "Hello, John! {x} {} {a b} {y".
Proof. vm_compute. reflexivity. Qed.

Example unknown_language : dictionaries_get (js "fr") = VUndef.
Proof. reflexivity. Qed.

Example inherited_language : dictionaries_get (js "constructor") = VHost (js "constructor").
Proof. reflexivity. Qed.

Lemma registered_iff (lang : jsstr) :
  registered lang ↔ lang = js "en" ∨ lang = js "es".
Proof.
  unfold registered, dictionaries. split.
  - intros [d H]. rewrite !elem_of_cons, elem_of_nil in H.
    destruct H as [H|[H|[]]]; simplify_eq; auto.
  - intros [-> | ->]; eexists; rewrite !elem_of_cons; eauto.
Qed.

(** *** Running the listeners *)

Lemma foldl_log_call_lang (lang : jsstr) (l : list (callback jsstr)) (st : State) :
  foldl (λ s cb, log_call (cb_id cb) lang s) st l
  = {| _storage := _storage st; _currentLang := _currentLang st;
       _listeners := _listeners st; supplied_store := supplied_store st;
       localStorage := localStorage st;
       navigator_language := navigator_language st;
       calls := calls st ++ map (λ cb, (cb_id cb, lang)) l |}.
Proof.
  revert st. induction l as [|cb l IH]; intros st; simpl.
  - rewrite app_nil_r. by destruct st.
  - rewrite IH. simpl. by rewrite <- app_assoc.
Qed.

Lemma emitLanguageChange_run (lang : jsstr) (st : State) :
  emitLanguageChange lang st
  = (Normal tt,
     {| _storage := _storage st; _currentLang := _currentLang st;
        _listeners := _listeners st; supplied_store := supplied_store st;
        localStorage := localStorage st;
        navigator_language := navigator_language st;
        calls := calls st ++ map (λ cb, (cb_id cb, lang)) (_listeners st) |}).
Proof.
  cbv [emitLanguageChange mbind M_bind get]. unfold call.
  rewrite (for_of_try_catch (_listeners st) (λ cb, log_call (cb_id cb) lang)
             (λ cb, cb_run cb lang)).
  by rewrite foldl_log_call_lang.
Qed.

(** *** [setLanguage] *)

(** A code that [dictionaries] neither owns nor inherits changes
    nothing: the language, the stores and the listeners' log stay as they
    were. *)
Lemma setLanguage_unknown (lang : jsstr) (st : State) :
  dictionaries_get lang = VUndef → setLanguage lang st = (Normal tt, st).
Proof. intros H. unfold setLanguage. by rewrite H. Qed.

Lemma setLanguage_fr (st : State) : setLanguage (js "fr") st = (Normal tt, st).
Proof. by apply setLanguage_unknown. Qed.

Lemma setItem_currentLang (r : storage_ref) (k v : jsstr) (st : State) :
  _currentLang (setItem r k v st) = _currentLang st.
Proof. by destruct r. Qed.

Lemma setLanguage_known (lang : jsstr) (st : State) :
  truthy (dictionaries_get lang) = true →
  setLanguage lang st
  = emitLanguageChange lang
      (setItem (default SafeLocalStorage (_storage st)) _storageKey lang
         (set_currentLang lang st)).
Proof. intros H. unfold setLanguage. by rewrite H. Qed.

(** What the guard of [setLanguage] does ensure. *)
Lemma setLanguage_current (lang : jsstr) (st : State) :
  truthy (dictionaries_get (_currentLang st)) = true →
  truthy (dictionaries_get (_currentLang (setLanguage lang st).2)) = true.
Proof.
  intros H. destruct (truthy (dictionaries_get lang)) eqn:E.
  - rewrite setLanguage_known, emitLanguageChange_run by done.
    cbn [snd _currentLang]. by rewrite setItem_currentLang.
  - unfold setLanguage. by rewrite E.
Qed.

(** C8 (the code departs from the claim): [dictionaries[lang]] is also
    truthy for the names an object literal inherits, so after
    initialization [setLanguage("constructor")] makes a code that is no
    key of [dictionaries] the current language, persists it and notifies
    the listeners with it. *)
Theorem setLanguage_accepts_inherited_name (cb : callback jsstr) :
  let st0 := (onLanguageChange cb (initI18n false (loaded (Some ∅) ∅ None)).2).2 in
  let st := (setLanguage (js "constructor") st0).2 in
  registered (_currentLang st0)
  ∧ _currentLang st = js "constructor"
  ∧ ¬ registered (_currentLang st)
  ∧ localStorage st = Some (<[_storageKey := js "constructor"]> ∅)
  ∧ calls st = [(cb_id cb, js "constructor")].
Proof.
  intros st0 st.
  assert (registered (_currentLang st0)) as H0.
  { apply registered_iff. by left. }
  subst st. rewrite setLanguage_known, emitLanguageChange_run by done.
  cbn [snd _currentLang localStorage calls].
  split; [done|]. split; [done|]. split.
  { rewrite registered_iff. by intros [H|H]. }
  split; [vm_compute|]; reflexivity.
Qed.

(** *** [interpolate]: the fuel is enough *)

Lemma span_word_length (s w rest : jsstr) :
  span_word s = (w, rest) → length s = (length w + length rest)%nat.
Proof.
  revert w rest. induction s as [|c r IH]; intros w rest; simpl.
  - intros. by simplify_eq.
  - destruct (is_word c); [|intros; by simplify_eq].
    destruct (span_word r) as [w' rest'] eqn:E. intros. simplify_eq.
    simpl. by rewrite (IH w' rest).
Qed.

Lemma replace_placeholders_fuel (f1 f2 : nat) (vars : gmap jsstr jsstr) (s : jsstr) :
  (length s ≤ f1)%nat → (length s ≤ f2)%nat →
  replace_placeholders f1 vars s = replace_placeholders f2 vars s.
Proof.
  revert f2 s. induction f1 as [|f1 IH]; intros f2 s H1 H2.
  { destruct s; [|simpl in H1; lia]. by destruct f2. }
  destruct s as [|c r]; [by destruct f2|].
  destruct f2 as [|f2]; [simpl in H2; lia|].
  simpl in H1, H2. simpl.
  destruct (c =? ch "{"); [|by rewrite (IH f2 r) by lia].
  destruct (span_word r) as [[|k w] [|c' r']] eqn:E;
    try by rewrite (IH f2 r) by lia.
  apply span_word_length in E. simpl in E.
  destruct (c' =? ch "}"); [|by rewrite (IH f2 r) by lia].
  destruct (vars !! (k :: w)); by rewrite (IH f2 r') by lia.
Qed.

(** *** [t] *)

Lemma t_not_undefined (host : jsstr → jsstr → option jsval) (lang key : jsstr) (vars : option (gmap jsstr jsstr)) :
  t host lang key vars ≠ VUndef.
Proof.
  unfold t. destruct (pathGet host (dictionary_of lang) key);
    try destruct (pathGet host en key); done.
Qed.

(** C7 (amended): [t] never returns [undefined]; it returns what the key
    resolves to in the dictionary of the current language, else what it
    resolves to in the English dictionary, else the key itself; the
    result is a string whenever the resolved value is one. *)
Theorem t_fallback (host : jsstr → jsstr → option jsval) (lang key : jsstr) :
  let cur := pathGet host (dictionary_of lang) key in
  let dflt := pathGet host en key in
  (∀ vars, t host lang key vars ≠ VUndef)
  ∧ (cur ≠ VUndef → t host lang key None = cur)
  ∧ (cur = VUndef → dflt ≠ VUndef → t host lang key None = dflt)
  ∧ (cur = VUndef → dflt = VUndef → t host lang key None = VStr key)
  ∧ (∀ s, cur = VStr s ∨ (cur = VUndef ∧ dflt = VStr s) →
          t host lang key None = VStr s).
Proof.
  intros cur dflt. split; [intros vars; apply t_not_undefined|].
  unfold t. fold cur dflt. repeat split.
  - intros H. by destruct cur.
  - intros -> H. by destruct dflt.
  - by intros -> ->.
  - intros s [->|[-> ->]]; done.
Qed.

Lemma t_fallback_witness :
  pathGet bare_host (dictionary_of (js "es")) (js "header.language.7") = VUndef
  ∧ pathGet bare_host en (js "header.language.7") = str "e"
  ∧ t bare_host (js "es") (js "header.language.7") None = str "e"
  ∧ t bare_host (js "es") (js "header.language") None = str "Idioma"
  ∧ t bare_host (js "es") (js "no.such.key") None = str "no.such.key".
Proof.
  destruct (t_fallback bare_host (js "es") (js "header.language.7"))
    as (_ & _ & Hd & _ & _).
  destruct (t_fallback bare_host (js "es") (js "header.language"))
    as (_ & Hc & _ & _ & _).
  destruct (t_fallback bare_host (js "es") (js "no.such.key"))
    as (_ & _ & _ & Hk & _).
  split; [reflexivity|]. split; [reflexivity|].
  split; [exact (Hd eq_refl ltac:(discriminate))|].
  split; [exact (Hc ltac:(discriminate))|].
  exact (Hk eq_refl eq_refl).
Defined.

(** C7 (counterexample): a key that names an inner node of the
    dictionary yields that subtree, which is not a string. *)
Lemma t_returns_subtree :
  t bare_host (js "en") (js "app") None = obj [("title", str "User Dashboard")]
  ∧ ¬ ∃ s, t bare_host (js "en") (js "app") None = VStr s.
Proof. split; [reflexivity|]. by intros [s H]. Qed.

End TranslationsFacts.

Module MainFacts.

Import Router Main JsFacts RouterFacts.

Example dispatch_updates :
  dispatch {| path := js "/application/updates";
              segments := [js "application"; js "updates"];
              params := <[js "sub" := js "x"]> (<[js "tab" := js "a"]> ∅) |}
  = {| renderer := ApplicationPage;
       render_params := Some (<[js "sub" := js "updates"]> (<[js "tab" := js "a"]> ∅)) |}.
Proof. vm_compute. reflexivity. Qed.



(** *** Pieces of a normalized path *)

Lemma split_not_nil (c : N) (s : jsstr) : split c s ≠ [].
Proof.
  destruct s as [|x r]; simpl; [done|].
  destruct (x =? c); [done|]. by destruct (split c r).
Qed.

Lemma split_pieces_nonempty (s : jsstr) :
  has_double_slash s = false →
  (∀ l, s ≠ l ++ [ch "/"]) →
  Forall (λ x, x ≠ []) (tail (split (ch "/") s)).
Proof.
  change (ch "/") with 47.
  induction s as [|x r IH]; intros Hd Hend; [by constructor|].
  assert (has_double_slash r = false) as Hdr.
  { destruct r as [|y r']; [done|]. simpl in Hd.
    by apply orb_false_iff in Hd as [_ ?]. }
  assert (∀ l, r ≠ l ++ [47]) as Hendr.
  { intros l ->. by apply (Hend (x :: l)). }
  specialize (IH Hdr Hendr).
  assert (split 47 (x :: r)
          = if x =? 47 then [] :: split 47 r
            else match split 47 r with
                 | h :: t => (x :: h) :: t
                 | [] => [[x]]
                 end) as -> by done.
  destruct (N.eqb_spec x 47) as [->|Hx].
  - simpl. destruct r as [|y r'].
    + by destruct (Hend []).
    + destruct (N.eqb_spec y 47) as [->|Hy].
      * simpl in Hd. done.
      * pose proof (split_not_nil 47 (y :: r')) as Hne.
        destruct (split 47 (y :: r')) as [|h t] eqn:E; [done|].
        constructor; [|done]. simpl in E.
        destruct (N.eqb_spec y 47); [done|].
        destruct (split 47 r'); by simplify_eq.
  - pose proof (split_not_nil 47 r) as Hne.
    by destruct (split 47 r) as [|h t].
Qed.





(** Once a route is current, [renderRoute] completes normally whatever the
    page module does: a throwing page ends in the error placeholder. *)
Lemma renderRoute_catches (render : render_call → completion unit)
      (st : State) (r : Route) :
  _currentRoute st = Some r →
  renderRoute true render st
  = (Normal (match render (dispatch r) with
             | Normal _ => Rendered (dispatch r)
             | Abrupt e => ErrorPlaceholder (dispatch r) e
             end), st).
Proof.
  intros Hr. cbv [renderRoute negb getRoute mbind M_bind get mret M_ret].
  rewrite Hr. by destruct (render (dispatch r)).
Qed.

End MainFacts.

Module NotificationFacts.

(** C9: one notification pass of the router and one of the translation
    registry complete normally whatever the listeners do, throwing
    included, and call every registered listener once, in order. *)
Theorem listener_exceptions_isolated :
  (∀ (r : Router.Route) (st : Router.State),
     ∃ st', Router.emit r st = (Normal tt, st')
            ∧ Router.calls st'
              = Router.calls st
                ++ map (λ cb, (cb_id cb, r)) (Router._listeners st))
  ∧ (∀ (lang : jsstr) (st : Translations.State),
       ∃ st', Translations.emitLanguageChange lang st = (Normal tt, st')
              ∧ Translations.calls st'
                = Translations.calls st
                  ++ map (λ cb, (cb_id cb, lang)) (Translations._listeners st)).
Proof.
  split.
  - intros r st. eexists. split; [apply RouterFacts.emit_run|done].
  - intros lang st. eexists.
    split; [apply TranslationsFacts.emitLanguageChange_run|done].
Qed.

(** A throwing listener ahead of a sound one: both are called. *)
Example faulty_listener_first :
  let st := Router.after Router.TimerExpires
              (Router.after (Router.HashChanges (js "#/status"))
                 (Router.after (Router.OnRouteChange Router.sound)
                    (Router.after (Router.OnRouteChange Router.faulty)
                       (Router.after (Router.InitRouter Router.home_options)
                          (Router.loaded (Some [])))))) in
  map fst (Router.calls st) = [1; 2]%nat.
Proof. reflexivity. Qed.

End NotificationFacts.

(* ===================================================================== *)
(** ** Further properties of the route model *)
(* ===================================================================== *)

Module RouteModelFacts.

Import Router JsFacts RouterFacts MainFacts Inverse.

Lemma split_no_sep (c : N) (s : jsstr) : c ∉ s → split c s = [s].
Proof.
  induction s as [|x r IH]; [done|].
  rewrite not_elem_of_cons. intros [Hx Hr]. simpl.
  destruct (N.eqb_spec x c); [done|]. by rewrite (IH Hr).
Qed.

Lemma split_app (c : N) (a b : jsstr) :
  split c (a ++ c :: b) = split c a ++ split c b.
Proof.
  induction a as [|x a IH]; simpl.
  - by rewrite N.eqb_refl.
  - destruct (x =? c); [by rewrite IH|].
    rewrite IH. pose proof (split_not_nil c a) as Hne.
    by destruct (split c a).
Qed.

Lemma join_split (c : N) (s : jsstr) : join c (split c s) = s.
Proof.
  induction s as [|x r IH]; [done|]. simpl.
  pose proof (split_not_nil c r) as Hne.
  destruct (N.eqb_spec x c) as [->|Hx].
  - destruct (split c r) as [|h t]; [done|]. simpl in IH |- *. by rewrite IH.
  - destruct (split c r) as [|h t]; [done|]. simpl in IH |- *.
    destruct t; by rewrite <- IH.
Qed.

Lemma split_pieces_no_sep (c : N) (s : jsstr) : Forall (λ p, c ∉ p) (split c s).
Proof.
  induction s as [|x r IH]; simpl.
  - constructor; [apply not_elem_of_nil|constructor].
  - destruct (N.eqb_spec x c) as [->|Hx].
    + constructor; [apply not_elem_of_nil|done].
    + destruct (split c r) as [|h t].
      * constructor; [|done]. rewrite not_elem_of_cons.
        split; [done|apply not_elem_of_nil].
      * inversion IH; subst. constructor; [|done].
        rewrite not_elem_of_cons. split; [done|done].
Qed.

Lemma split_join (c : N) (pieces : list jsstr) :
  pieces ≠ [] → Forall (λ p, c ∉ p) pieces → split c (join c pieces) = pieces.
Proof.
  intros Hne Hall. induction Hall as [|p rest Hp Hrest IH]; [done|].
  destruct rest as [|q rest']; simpl.
  - by apply split_no_sep.
  - change (join c (q :: rest')) with
      (match rest' with [] => q | _ :: _ => q ++ c :: join c rest' end) in IH.
    rewrite split_app, (split_no_sep c p Hp). simpl. f_equal. by apply IH.
Qed.

(** The segments of a path as [normalizePath] returns it, when it is not
    the root: the pieces between the slashes, none of them empty. *)
Lemma toSegments_normalized (raw : jsstr) :
  ∃ r, normalizePath raw = 47 :: r
       ∧ toSegments (normalizePath raw) = (if is_empty r then [] else split 47 r)
       ∧ Forall (λ x, x ≠ []) (toSegments (normalizePath raw)).
Proof.
  destruct (normalizePath_form raw) as (r & -> & Hd & Hend).
  exists r. split; [done|]. unfold toSegments. change (js "/") with [47].
  destruct r as [|y r'].
  { split; [done|]. constructor. }
  assert (bool_decide (47 :: y :: r' = [47]) = false) as ->
    by by apply bool_decide_eq_false.
  assert (∀ l, 47 :: y :: r' ≠ l ++ [ch "/"]) as Hend'.
  { intros l Hl. assert (y :: r' = []); [|done].
    apply Hend, endsWith_slash. by exists l. }
  pose proof (split_pieces_nonempty _ Hd Hend') as Hall.
  assert (split (ch "/") (47 :: y :: r') = [] :: split (ch "/") (y :: r'))
    as Hs by done.
  rewrite Hs in Hall |- *. cbn [tail] in Hall.
  change (ch "/") with 47 in *.
  set (pieces := split 47 (y :: r')) in *. clearbody pieces.
  cbn [is_empty orb List.filter negb].
  assert (List.filter (λ x, negb (is_empty x)) pieces = pieces) as ->; [|done].
  clear -Hall. induction Hall as [|x l Hx _ IH]; [done|].
  simpl. destruct x; [done|]. simpl. by rewrite IH.
Qed.

(** X1: the segments of a normalized path are non-empty and free of
    slashes, and joining them with slashes behind a leading slash gives
    the path back. *)
Theorem segments_round_trip (raw : jsstr) :
  path_of_segments (toSegments (normalizePath raw)) = normalizePath raw
  ∧ Forall (λ s, s ≠ [] ∧ ch "/" ∉ s) (toSegments (normalizePath raw)).
Proof.
  destruct (toSegments_normalized raw) as (r & Hp & Hs & Hne).
  rewrite Hs in *. rewrite Hp. unfold path_of_segments.
  change (js "/") with [47]. change (ch "/") with 47.
  destruct r as [|y r']; [split; [done|constructor]|].
  cbn [is_empty] in *. split.
  - by rewrite join_split.
  - pose proof (split_pieces_no_sep 47 (y :: r')) as Hsep.
    apply Forall_forall. intros s Hin. split.
    + by eapply Forall_forall in Hne.
    + by eapply Forall_forall in Hsep.
Qed.

(** *** Reading back a query *)

Lemma indexOf_app_sep (c : N) (a b : jsstr) :
  c ∉ a → indexOf c (a ++ c :: b) = Some (length a).
Proof.
  induction a as [|x a IH]; simpl.
  - by rewrite N.eqb_refl.
  - rewrite not_elem_of_cons. intros [Hx Ha].
    destruct (N.eqb_spec x c); [done|]. by rewrite (IH Ha).
Qed.

Lemma drop_app_sep (c : N) (a b : jsstr) : drop (S (length a)) (a ++ c :: b) = b.
Proof.
  induction a as [|x a IH]; [done|]. exact IH.
Qed.

Lemma parse_plain_part (out : gmap jsstr jsstr) (kv : jsstr * jsstr) :
  plain_pair kv →
  parse_part out (kv.1 ++ js "=" ++ kv.2) = Normal (<[kv.1 := kv.2]> out).
Proof.
  destruct kv as [k v]. unfold plain_pair. cbn [fst snd].
  intros (Hne & Hproto & Hk1 & Hk2 & Hk3 & Hv1 & Hv2).
  unfold parse_part. change (js "=") with [ch "="].
  assert (is_empty (k ++ [ch "="] ++ v) = false) as -> by by destruct k.
  change (k ++ [ch "="] ++ v) with (k ++ ch "=" :: v).
  rewrite (indexOf_app_sep _ _ _ Hk3).
  unfold slice_to, slice_from. rewrite take_app_length, drop_app_sep.
  rewrite (decode_no_percent k Hk1), (decode_no_percent v Hv1). simpl.
  destruct k; [done|]. simpl. unfold set_property.
  by rewrite decide_False.
Qed.

Lemma parse_plain_parts (pairs : list (jsstr * jsstr)) (out : gmap jsstr jsstr) :
  Forall plain_pair pairs →
  parse_parts out (map (λ kv, kv.1 ++ js "=" ++ kv.2) pairs)
  = Normal (foldl (λ m kv, <[kv.1 := kv.2]> m) out pairs).
Proof.
  intros H. revert out. induction H as [|kv rest Hkv _ IH]; intros out; [done|].
  cbn [map parse_parts foldl]. rewrite (parse_plain_part out kv Hkv). apply IH.
Qed.

(** X2: a query built from plain pairs ([k=v] joined by [&], keys
    non-empty and other than [__proto__], no [%], [&] or [=] in a key, no
    [%] or [&] in a value) behind any prefix without a question mark is
    read back by [parseParams] as the object those pairs describe, a later
    pair overriding an earlier one with the same key. *)
Theorem parseParams_round_trip (before : jsstr) (pairs : list (jsstr * jsstr)) :
  ch "?" ∉ before →
  Forall plain_pair pairs →
  parseParams (before ++ js "?" ++ query_string pairs) = Normal (object_of pairs).
Proof.
  intros Hb Hall. unfold parseParams. change (js "?") with [ch "?"].
  assert (is_empty (before ++ [ch "?"] ++ query_string pairs) = false) as ->
    by by destruct before.
  change (before ++ [ch "?"] ++ query_string pairs)
    with (before ++ ch "?" :: query_string pairs).
  rewrite (indexOf_app_sep _ _ _ Hb). unfold slice_from. rewrite drop_app_sep.
  destruct pairs as [|kv rest]; [done|].
  assert (is_empty (query_string (kv :: rest)) = false) as ->.
  { unfold query_string. simpl. inversion Hall as [|? ? Hkv _]; subst.
    destruct Hkv as (Hne & _). destruct kv as [[|x k] v]; [done|].
    simpl. by destruct (map _ rest). }
  unfold query_string. rewrite split_join.
  - by apply parse_plain_parts.
  - done.
  - apply Forall_map. eapply Forall_impl; [exact Hall|].
    intros [k v] (_ & _ & _ & Hk & _ & _ & Hv). simpl in *.
    change (js "=") with [ch "="]. rewrite !not_elem_of_app, not_elem_of_cons.
    by repeat split.
Qed.

Lemma parseParams_round_trip_witness :
  parseParams (js "#/basic/network?tab=wifi&mode=a=b&tab=lan")
  = Normal (<[js "tab" := js "lan"]> (<[js "mode" := js "a=b"]> (<[js "tab" := js "wifi"]> ∅))).
Proof.
  apply (parseParams_round_trip (js "#/basic/network")
           [(js "tab", js "wifi"); (js "mode", js "a=b"); (js "tab", js "lan")]).
  - apply (bool_decide_unpack _). vm_compute. exact I.
  - repeat constructor; apply (bool_decide_unpack _); vm_compute; exact I.
Defined.

(** *** Normalizing twice *)

Lemma collapse_slashes_id (s : jsstr) :
  has_double_slash s = false → collapse_slashes s = s.
Proof.
  induction s as [|a [|b r] IH]; [done..|]. intros Hd.
  change (has_double_slash (a :: b :: r))
    with ((a =? 47) && (b =? 47) || has_double_slash (b :: r)) in Hd.
  apply orb_false_iff in Hd as [Hab Hr].
  change (collapse_slashes (a :: b :: r))
    with (if (a =? ch "/") && (b =? ch "/") then collapse_slashes (b :: r)
          else a :: collapse_slashes (b :: r)).
  change (ch "/") with 47. rewrite Hab. by rewrite (IH Hr).
Qed.

Lemma trimEnd_id (s : jsstr) :
  (∀ c, last s = Some c → is_white_space c = false) → trimEnd s = s.
Proof.
  intros H. unfold trimEnd. destruct (rev s) as [|c l] eqn:E.
  - apply (f_equal (@rev N)) in E. by rewrite rev_involutive in E.
  - apply (f_equal (@rev N)) in E. rewrite rev_involutive in E. subst s.
    cbn [trimStart]. rewrite (H c); [done|]. cbn [rev]. apply last_snoc.
Qed.

(** A path shaped like a result of [normalizePath] and not ending in
    white space is a fixed point, with or without a hash sign in front. *)
Lemma normalizePath_fixed (r : jsstr) :
  has_double_slash (47 :: r) = false →
  (endsWith (47 :: r) (js "/") = true → r = []) →
  ch "?" ∉ 47 :: r →
  (∀ c, last (47 :: r) = Some c → is_white_space c = false) →
  normalizePath (47 :: r) = 47 :: r
  ∧ normalizePath (js "#" ++ 47 :: r) = 47 :: r.
Proof.
  intros Hd Hend Hq Hlast.
  assert (trim (47 :: r) = 47 :: r) as Ht1.
  { unfold trim. change (trimStart (47 :: r)) with (47 :: r). by apply trimEnd_id. }
  assert (trim (js "#" ++ 47 :: r) = js "#" ++ 47 :: r) as Ht2.
  { unfold trim. change (js "#" ++ 47 :: r) with (35 :: 47 :: r).
    change (trimStart (35 :: 47 :: r)) with (35 :: 47 :: r).
    apply trimEnd_id. intros c Hc. apply Hlast. exact Hc. }
  assert (∀ s, s = 47 :: r →
    (let s := if startsWith s (js "!") then slice_from 1 s else s in
     let s := if startsWith s (js "/") then s else js "/" ++ s in
     let s := collapse_slashes s in
     let onlyPath := hd [] (split (ch "?") s) in
     let cleaned :=
       if (1 <? length onlyPath)%nat && endsWith onlyPath (js "/")
       then slice_but_last onlyPath else onlyPath in
     if is_empty cleaned then js "/" else cleaned) = 47 :: r) as Hrest.
  { intros s ->. cbv zeta. change (startsWith (47 :: r) (js "!")) with false.
    cbv iota. change (startsWith (47 :: r) (js "/")) with true.
    cbv iota. rewrite (collapse_slashes_id _ Hd), (split_no_sep _ _ Hq).
    cbn [hd].
    destruct (endsWith (47 :: r) (js "/")) eqn:E.
    - rewrite (Hend eq_refl). reflexivity.
    - by rewrite andb_false_r. }
  split.
  - unfold normalizePath. rewrite Ht1.
    change (startsWith (47 :: r) (js "#")) with false. cbv iota.
    by apply Hrest.
  - unfold normalizePath. rewrite Ht2.
    change (startsWith (js "#" ++ 47 :: r) (js "#")) with true. cbv iota.
    change (slice_from 1 (js "#" ++ 47 :: r)) with (47 :: r).
    by apply Hrest.
Qed.

(** X3: when the result of [normalizePath] does not end in white space,
    normalizing it again changes nothing, and the fragment [navigate]
    writes for it (a hash sign and the result) normalizes to it as well. *)
Theorem normalizePath_idempotent (raw : jsstr) :
  (∀ c, last (normalizePath raw) = Some c → is_white_space c = false) →
  normalizePath (normalizePath raw) = normalizePath raw
  ∧ normalizePath (js "#" ++ normalizePath raw) = normalizePath raw.
Proof.
  intros Hlast. pose proof (normalizePath_no_query raw) as Hq.
  destruct (normalizePath_form raw) as (r & Hp & Hd & Hend).
  rewrite Hp in *. by apply normalizePath_fixed.
Qed.

Lemma normalizePath_idempotent_witness :
  normalizePath (js "  #!//basic///network/?tab=wifi ") = js "/basic/network"
  ∧ normalizePath (normalizePath (js "  #!//basic///network/?tab=wifi "))
    = normalizePath (js "  #!//basic///network/?tab=wifi ")
  ∧ normalizePath (js "#" ++ normalizePath (js "  #!//basic///network/?tab=wifi "))
    = normalizePath (js "  #!//basic///network/?tab=wifi ").
Proof.
  split; [reflexivity|].
  apply (normalizePath_idempotent (js "  #!//basic///network/?tab=wifi ")).
  intros c Hc. vm_compute in Hc. injection Hc as <-. reflexivity.
Defined.

(** *** The whitelist and segment boundaries *)

(** X4: a whitelist entry is allowed, so is everything below an allowed
    path, and a path that continues an entry with anything but a slash is
    not allowed. *)
Theorem whitelist_segment_boundary (base t : jsstr) (c : N) :
  base ∈ ROUTE_WHITELIST →
  isAllowedRoute base = true
  ∧ (∀ p, isAllowedRoute p = true → isAllowedRoute (p ++ js "/" ++ t) = true)
  ∧ (c ≠ ch "/" → isAllowedRoute (base ++ c :: t) = false).
Proof.
  intros Hin. split; [|split].
  - apply isAllowedRoute_spec. exists base. by split; [|left].
  - intros p Hp. apply isAllowedRoute_spec in Hp as (b & Hb & Hp).
    apply isAllowedRoute_spec. exists b. split; [done|]. right.
    destruct Hp as [->|[t0 ->]].
    + by exists t.
    + exists (t0 ++ js "/" ++ t). by rewrite <- !app_assoc.
  - intros Hc. apply not_true_is_false. intros Ha.
    apply isAllowedRoute_spec in Ha as (b & Hb & Hp).
    change (ch "/") with 47 in Hc.
    unfold ROUTE_WHITELIST in Hin, Hb.
    rewrite !elem_of_cons, elem_of_nil in Hin, Hb.
    destruct Hin as [->|[->|[->|[->|[->|[->|[]]]]]]];
      destruct Hb as [->|[->|[->|[->|[->|[->|[]]]]]]];
      destruct Hp as [Hp|[t' Hp]]; vm_compute in Hp; by simplify_eq.
Qed.

Lemma whitelist_segment_boundary_witness :
  isAllowedRoute (js "/home") = true
  ∧ isAllowedRoute (js "/home/a" ++ js "/" ++ js "b") = true
  ∧ isAllowedRoute (js "/home" ++ ch "p" :: js "age") = false.
Proof.
  destruct (whitelist_segment_boundary (js "/home") (js "b") (ch "p"))
    as (H1 & H2 & H3).
  { unfold ROUTE_WHITELIST. apply elem_of_cons. by left. }
  split; [exact H1|]. split.
  - apply (H2 (js "/home/a")). reflexivity.
  - destruct (whitelist_segment_boundary (js "/home") (js "age") (ch "p"))
      as (_ & _ & H4).
    { unfold ROUTE_WHITELIST. apply elem_of_cons. by left. }
    apply H4. discriminate.
Defined.

(** *** Fragments without escapes *)

(** X5: a fragment without a percent sign always yields a route, whose
    path is the normalized fragment and whose segments are the segments of
    that path; only percent escapes can make the parse throw. *)
Theorem route_without_escapes (raw : jsstr) :
  ch "%" ∉ raw →
  ∃ r, route_of raw = Normal r
       ∧ path r = normalizePath raw
       ∧ segments r = toSegments (normalizePath raw).
Proof.
  intros H. destruct (route_of_no_percent raw H) as (r & Hr & Hp).
  exists r. split; [done|]. split; [done|].
  unfold route_of in Hr. destruct (parseParams raw); [|done].
  by injection Hr as <-.
Qed.

Lemma route_without_escapes_witness :
  ∃ r, route_of (js "#/status/lan?x=1&y") = Normal r
       ∧ path r = normalizePath (js "#/status/lan?x=1&y")
       ∧ segments r = toSegments (normalizePath (js "#/status/lan?x=1&y")).
Proof.
  apply (route_without_escapes (js "#/status/lan?x=1&y")).
  apply (bool_decide_unpack _). vm_compute. exact I.
Defined.

End RouteModelFacts.

(* ===================================================================== *)
(** ** Further properties of the router *)
(* ===================================================================== *)

Module RouterStateFacts.

Import Router JsFacts RouterFacts.

(** *** Listeners form a set *)





Lemma set_delete_absent {A} (cb : callback A) (l : list (callback A)) :
  cb_id cb ∉ cb_id <$> l → set_delete cb l = l.
Proof.
  unfold set_delete. induction l as [|x l IH]; [done|].
  rewrite fmap_cons, not_elem_of_cons. intros [Hx Hl]. simpl.
  destruct (Nat.eqb_spec (cb_id x) (cb_id cb)); [congruence|].
  simpl. by rewrite (IH Hl).
Qed.

Lemma set_delete_add {A} (cb : callback A) (l : list (callback A)) :
  cb_id cb ∉ cb_id <$> l → set_delete cb (set_add cb l) = l.
Proof.
  intros H. unfold set_add.
  destruct (existsb (λ x, Nat.eqb (cb_id x) (cb_id cb)) l) eqn:E.
  - by apply set_delete_absent.
  - unfold set_delete. rewrite List.filter_app. simpl.
    rewrite Nat.eqb_refl. simpl. rewrite app_nil_r.
    by apply (set_delete_absent cb l).
Qed.

Lemma set_add_idem {A} (cb : callback A) (l : list (callback A)) :
  set_add cb (set_add cb l) = set_add cb l.
Proof.
  unfold set_add at 2.
  destruct (existsb (λ x, Nat.eqb (cb_id x) (cb_id cb)) l) eqn:E.
  - unfold set_add. by rewrite E.
  - unfold set_add. rewrite existsb_app. simpl.
    by rewrite Nat.eqb_refl, E.
Qed.

(** What the events leave alone. *)
Lemma listeners_navigate (p : jsstr) (replace silent : bool) (st : State) :
  _listeners (navigate p replace silent st).2 = _listeners st
  ∧ _currentRoute (navigate p replace silent st).2 = _currentRoute st
  ∧ calls (navigate p replace silent st).2 = calls st
  ∧ _defaultRoute (navigate p replace silent st).2 = _defaultRoute st.
Proof.
  cbv [navigate mbind M_bind get mret M_ret modify debouncedHandleRouteChange].
  destruct (win st); [|done]. by destruct silent.
Qed.

Lemma listeners_handleRouteChange (st : State) :
  _listeners (handleRouteChange st).2 = _listeners st
  ∧ _defaultRoute (handleRouteChange st).2 = _defaultRoute st.
Proof.
  cbv [handleRouteChange buildRouteFrom mbind M_bind get lift].
  destruct (route_of _) as [route|e]; [|done].
  destruct (isAllowedRoute (path route)); cbn [negb].
  - by rewrite emit_run.
  - destruct (listeners_navigate (_defaultRoute st) true false st) as (? & _ & _ & ?).
    done.
Qed.

Lemma update_defaultRoute_frame (options : Options) (st : State) :
  (update_defaultRoute options st).1 = Normal tt
  ∧ _listeners (update_defaultRoute options st).2 = _listeners st
  ∧ _currentRoute (update_defaultRoute options st).2 = _currentRoute st
  ∧ calls (update_defaultRoute options st).2 = calls st
  ∧ _isInitialized (update_defaultRoute options st).2 = _isInitialized st
  ∧ _debounceTimer (update_defaultRoute options st).2 = _debounceTimer st
  ∧ win (update_defaultRoute options st).2 = win st.
Proof.
  unfold update_defaultRoute. destruct (opt_defaultRoute options) as [d|]; [|done].
  by destruct (is_empty d).
Qed.





(** X7: subscribing a listener twice is the same as subscribing it once,
    and unsubscribing a listener that is not registered changes nothing, so
    that subscribing a new listener and unsubscribing it restores the
    state. *)
Theorem subscribe_unsubscribe (cb : callback Route) (st : State) :
  after (OnRouteChange cb) (after (OnRouteChange cb) st)
  = after (OnRouteChange cb) st
  ∧ (cb_id cb ∉ cb_id <$> _listeners st →
     after (OffRouteChange cb) st = st
     ∧ after (OffRouteChange cb) (after (OnRouteChange cb) st) = st).
Proof.
  split.
  - cbv [after handle onRouteChange mbind M_bind get modify snd set_listeners].
    cbn [_listeners _defaultRoute _currentRoute _isInitialized _debounceTimer
         win calls]. by rewrite set_add_idem.
  - intros H.
    cbv [after handle onRouteChange offRouteChange mbind M_bind get modify snd
         set_listeners].
    cbn [_listeners _defaultRoute _currentRoute _isInitialized _debounceTimer
         win calls].
    rewrite (set_delete_absent cb _ H), (set_delete_add cb _ H). by destruct st.
Qed.

Lemma subscribe_unsubscribe_witness :
  let st := after (InitRouter home_options) (loaded (Some [])) in
  after (OnRouteChange sound) (after (OnRouteChange sound) st)
  = after (OnRouteChange sound) st
  ∧ after (OffRouteChange sound) st = st
  ∧ after (OffRouteChange sound) (after (OnRouteChange sound) st) = st.
Proof.
  intros st. destruct (subscribe_unsubscribe sound st) as [H1 H2].
  split; [exact H1|]. apply H2. apply (bool_decide_unpack _). vm_compute. exact I.
Defined.

(** *** Only the timer resolves *)

(** X8: no event other than the expiry of the debounce timer changes the
    current route; until then [getRoute] keeps returning the route
    resolved last, whatever the fragment has become, and [navigate], a
    fragment change, subscribing and unsubscribing call no listener. *)
Theorem only_the_timer_resolves (e : event) (st : State) :
  e ≠ TimerExpires →
  _currentRoute (after e st) = _currentRoute st
  ∧ (∀ r, _currentRoute st = Some r →
          getRoute (after e st) = (Normal r, after e st))
  ∧ ((∀ options, e ≠ InitRouter options) → calls (after e st) = calls st).
Proof.
  intros He.
  assert (_currentRoute (after e st) = _currentRoute st
          ∧ ((∀ options, e ≠ InitRouter options) → calls (after e st) = calls st))
    as [Hc Hcalls].
  { unfold after. destruct e as [options|p rep sil|cb|cb| |h]; cbn [handle].
    - split; [|intros H; by destruct (H options)].
      cbv [initRouter mbind M_bind get].
      destruct (update_defaultRoute_frame options st) as (Hok & _ & Hcur & _).
      destruct (update_defaultRoute_frame options (set_isInitialized true st))
        as (Hok' & _ & Hcur' & _).
      destruct (_isInitialized st).
      + destruct (update_defaultRoute options st) as [c s]. simpl in *. subst c.
        destruct (opt_onRouteChange options) as [cb|]; [|done].
        cbv [onRouteChange mbind M_bind get modify]. simpl.
        destruct (_currentRoute s) as [r|] eqn:Hr; [|by rewrite <- Hcur].
        cbv [try_catch call mbind M_bind modify lift].
        destruct (cb_run cb r); simpl; by rewrite <- Hcur.
      + cbv [modify].
        destruct (update_defaultRoute options (set_isInitialized true st)) as [c s].
        simpl in *. subst c.
        cbv [debouncedHandleRouteChange onRouteChange mbind M_bind mret M_ret
             get modify].
        destruct (opt_onRouteChange options) as [cb|]; simpl;
          destruct (win s); simpl; by rewrite Hcur'.
    - by destruct (listeners_navigate p rep sil st) as (_ & -> & -> & _).
    - done.
    - done.
    - done.
    - cbv [hash_changes mbind M_bind mret M_ret get modify
           debouncedHandleRouteChange].
      destruct (win st) as [w|]; [|done]. by destruct (hashchange_bound w). }
  split; [done|]. split; [|done].
  intros r Hr. cbv [getRoute mbind M_bind get mret M_ret]. by rewrite Hc, Hr.
Qed.

Lemma only_the_timer_resolves_witness :
  let st := settle 1 (after (HashChanges (js "#/status"))
                        (after (InitRouter home_options) (loaded (Some [])))) in
  let e := HashChanges (js "#/home?%zz") in
  path <$> _currentRoute st = Some (js "/status")
  ∧ current_hash (after e st) = js "#/home?%zz"
  ∧ _currentRoute (after e st) = _currentRoute st
  ∧ calls (after e st) = calls st.
Proof.
  intros st e.
  destruct (only_the_timer_resolves e st) as (H1 & _ & H3); [discriminate|].
  split; [reflexivity|]. split; [reflexivity|]. split; [exact H1|].
  apply H3. discriminate.
Defined.

(** *** Bursts of fragment changes *)

Lemma hash_change_run (h : jsstr) (st : State) (w : Window) :
  win st = Some w → hashchange_bound w = true →
  ∃ w', after (HashChanges h) st = set_debounceTimer true (set_win (Some w') st)
        ∧ location_hash w' = h ∧ hashchange_bound w' = true.
Proof.
  intros Hw Hb.
  cbv [after handle hash_changes mbind M_bind mret M_ret get modify
       debouncedHandleRouteChange].
  rewrite Hw, Hb. cbn [snd]. eexists. split; [reflexivity|]. by split.
Qed.

Lemma hash_burst (hs : list jsstr) (h : jsstr) (st : State) (w : Window) :
  win st = Some w → hashchange_bound w = true →
  ∃ w', foldl (λ s x, after (HashChanges x) s) st (hs ++ [h])
        = set_debounceTimer true (set_win (Some w') st)
        ∧ location_hash w' = h ∧ hashchange_bound w' = true.
Proof.
  revert st w. induction hs as [|x hs IH]; intros st w Hw Hb.
  - by apply (hash_change_run h st w).
  - destruct (hash_change_run x st w Hw Hb) as (w1 & E1 & _ & Hb1).
    cbn [app foldl]. rewrite E1.
    destruct (IH (set_debounceTimer true (set_win (Some w1) st)) w1 eq_refl Hb1)
      as (w' & E & Hh & Hb').
    exists w'. rewrite E. by split.
Qed.

(** X9: however many fragment changes arrive before the debounce timer
    expires, the one expiry resolves the last fragment only: when that
    fragment parses to an allowed route, the route becomes current, no
    timer stays pending and every listener is called exactly once, with
    that route. *)
Theorem burst_resolves_once (hs : list jsstr) (h : jsstr) (st : State)
        (w : Window) (r : Route) :
  win st = Some w → hashchange_bound w = true →
  route_of h = Normal r → isAllowedRoute (path r) = true →
  let st' := after TimerExpires
               (foldl (λ s x, after (HashChanges x) s) st (hs ++ [h])) in
  _currentRoute st' = Some r
  ∧ _debounceTimer st' = false
  ∧ calls st' = calls st ++ map (λ cb, (cb_id cb, r)) (_listeners st).
Proof.
  intros Hw Hb Hr Ha st'. subst st'.
  destruct (hash_burst hs h st w Hw Hb) as (w' & -> & Hh & _).
  unfold after. cbn [handle].
  rewrite (timer_expires_run (set_debounceTimer true (set_win (Some w') st)) eq_refl).
  cbv [handleRouteChange buildRouteFrom mbind M_bind get lift current_hash].
  cbn [win set_debounceTimer set_win]. rewrite Hh.
  assert (route_of (if is_empty h then h else h) = Normal r) as ->
    by by destruct (is_empty h).
  rewrite Ha. cbn [negb]. by rewrite emit_run.
Qed.

Lemma burst_resolves_once_witness :
  let st := after (OnRouteChange sound)
              (after (InitRouter home_options) (loaded (Some []))) in
  let st' := after TimerExpires
               (foldl (λ s x, after (HashChanges x) s) st
                  ([js "#/basic"; js "#/nowhere"; js "#/home?%zz"] ++ [js "#/status/lan"])) in
  path <$> _currentRoute st' = Some (js "/status/lan")
  ∧ _debounceTimer st' = false
  ∧ fst <$> calls st' = [2%nat].
Proof.
  intros st st'.
  destruct (burst_resolves_once [js "#/basic"; js "#/nowhere"; js "#/home?%zz"]
              (js "#/status/lan") st
              {| location_hash := []; history := []; hashchange_bound := true |}
              {| path := js "/status/lan"; segments := [js "status"; js "lan"];
                 params := ∅ |}
              eq_refl eq_refl eq_refl eq_refl) as (H1 & H2 & H3).
  fold st' in H1, H2, H3. rewrite H1, H2, H3. repeat split.
Defined.

(** *** Initializing again *)

(** X10: [initRouter] on a router that is already initialized and has a
    current route registers the listener it is given, calls it once with
    that route at once, swallowing what it throws, and neither sets a
    timer nor touches the window or the current route. *)
Theorem reinit_replays (st : State) (cb : callback Route) (d : option jsstr)
        (r : Route) :
  _isInitialized st = true → _currentRoute st = Some r →
  let options := {| opt_defaultRoute := d; opt_onRouteChange := Some cb |} in
  (initRouter options st).1 = Normal tt
  ∧ calls (after (InitRouter options) st) = calls st ++ [(cb_id cb, r)]
  ∧ _listeners (after (InitRouter options) st) = set_add cb (_listeners st)
  ∧ _debounceTimer (after (InitRouter options) st) = _debounceTimer st
  ∧ win (after (InitRouter options) st) = win st
  ∧ _currentRoute (after (InitRouter options) st) = Some r.
Proof.
  intros Hi Hr options. unfold after. cbn [handle].
  cbv [initRouter mbind M_bind get]. rewrite Hi.
  destruct (update_defaultRoute_frame options st)
    as (Hok & Hl & Hcur & Hcalls & _ & Ht & Hw).
  destruct (update_defaultRoute options st) as [c s]. simpl in *. subst c.
  cbv [onRouteChange mbind M_bind get modify]. cbn [_currentRoute set_listeners].
  rewrite Hcur, Hr.
  cbv [try_catch call mbind M_bind modify lift].
  destruct (cb_run cb r); cbn; by rewrite Hl, Hcalls, Ht, Hw, Hcur, Hr.
Qed.

Lemma reinit_replays_witness :
  let st := settle 1 (after (HashChanges (js "#/status"))
                        (after (InitRouter home_options) (loaded (Some [])))) in
  let options := {| opt_defaultRoute := None; opt_onRouteChange := Some faulty |} in
  (initRouter options st).1 = Normal tt
  ∧ fst <$> calls (after (InitRouter options) st) = [1%nat]
  ∧ _debounceTimer (after (InitRouter options) st) = false.
Proof.
  intros st options.
  destruct (reinit_replays st faulty None
              {| path := js "/status"; segments := [js "status"]; params := ∅ |}
              eq_refl eq_refl) as (H1 & H2 & _ & H3 & _).
  fold options in H1, H2, H3. rewrite H1, H2, H3. repeat split.
Defined.

(** *** The default route *)

Lemma defaultRoute_after (e : event) (st : State) :
  (∃ raw, _defaultRoute st = normalizePath raw) →
  ∃ raw, _defaultRoute (after e st) = normalizePath raw.
Proof.
  intros H.
  assert (∀ options s, (∃ raw, _defaultRoute s = normalizePath raw) →
            ∃ raw, _defaultRoute (update_defaultRoute options s).2
                   = normalizePath raw) as Hupd.
  { intros options s Hs. unfold update_defaultRoute.
    destruct (opt_defaultRoute options) as [d|]; [|done].
    destruct (is_empty d); [done|]. by exists d. }
  unfold after. destruct e as [options|p rep sil|cb|cb| |h]; cbn [handle].
  - cbv [initRouter mbind M_bind get].
    pose proof (Hupd options st H) as H1.
    assert (∃ raw, _defaultRoute (set_isInitialized true st) = normalizePath raw)
      as H2 by done.
    pose proof (Hupd options _ H2) as H3.
    destruct (update_defaultRoute_frame options st) as (Hok & _).
    destruct (update_defaultRoute_frame options (set_isInitialized true st))
      as (Hok' & _).
    destruct (_isInitialized st).
    + destruct (update_defaultRoute options st) as [c s]. simpl in *. subst c.
      destruct (opt_onRouteChange options) as [cb|]; [|done].
      cbv [onRouteChange mbind M_bind get modify]. simpl.
      destruct (_currentRoute s) as [r|]; [|done].
      cbv [try_catch call mbind M_bind modify lift].
      by destruct (cb_run cb r).
    + cbv [modify].
      destruct (update_defaultRoute options (set_isInitialized true st)) as [c s].
      simpl in *. subst c.
      cbv [debouncedHandleRouteChange onRouteChange mbind M_bind mret M_ret
           get modify].
      destruct (opt_onRouteChange options) as [cb|]; simpl;
        by destruct (win s).
  - by destruct (listeners_navigate p rep sil st) as (_ & _ & _ & ->).
  - done.
  - done.
  - cbv [timer_expires mbind M_bind get modify].
    destruct (_debounceTimer st); [|done].
    by destruct (listeners_handleRouteChange (set_debounceTimer false st))
      as [_ ->].
  - cbv [hash_changes mbind M_bind mret M_ret get modify
         debouncedHandleRouteChange].
    destruct (win st) as [w|]; [|done]. by destruct (hashchange_bound w).
Qed.

(** X11: in every reachable state the default route is a normalized
    path: it starts with a slash, has no two slashes in a row and no
    question mark, and ends with a slash only if it is the root. *)
Theorem default_route_normalized (st : State) :
  reachable st →
  (∃ r, _defaultRoute st = js "/" ++ r)
  ∧ (¬ ∃ l1 l2, _defaultRoute st = l1 ++ js "//" ++ l2)
  ∧ (ch "?" ∉ _defaultRoute st)
  ∧ (∀ l, _defaultRoute st = l ++ js "/" → _defaultRoute st = js "/").
Proof.
  intros Hr.
  assert (∃ raw, _defaultRoute st = normalizePath raw) as [raw ->].
  { induction Hr as [h|e st _ IH]; [by exists (js "/home")|].
    by apply defaultRoute_after. }
  pose proof (normalizePath_no_query raw) as Hq.
  destruct (normalizePath_form raw) as (r & Hp & Hd & Hend).
  rewrite Hp in *. split; [by exists r|]. split; [|split; [done|]].
  - intros H. apply has_double_slash_infix in H. congruence.
  - intros l Hl. rewrite Hend; [done|]. apply endsWith_slash. by exists l.
Qed.

Lemma default_route_normalized_witness :
  let st := after (InitRouter {| opt_defaultRoute := Some (js " #//status//lan/?x=1");
                                 opt_onRouteChange := None |})
              (loaded None) in
  _defaultRoute st = js "/status/lan"
  ∧ (∃ r, _defaultRoute st = js "/" ++ r)
  ∧ (ch "?" ∉ _defaultRoute st).
Proof.
  intros st.
  assert (reachable st) as Hr by (apply reachable_after, reachable_loaded).
  destruct (default_route_normalized st Hr) as (H1 & _ & H3 & _).
  split; [reflexivity|]. split; [exact H1|exact H3].
Defined.

End RouterStateFacts.

(* ===================================================================== *)
(** ** Further properties of the translation registry *)
(* ===================================================================== *)

Module TranslationsMoreFacts.

Import Translations JsFacts TranslationsFacts Persistence.

(** *** Dotted paths compose *)

Lemma walk_undefined (host : jsstr → jsstr → option jsval) (parts : list jsstr) :
  walk host VUndef parts = VUndef.
Proof. by destruct parts. Qed.

Lemma walk_app (host : jsstr → jsstr → option jsval) (cur : jsval)
      (l1 l2 : list jsstr) :
  walk host cur (l1 ++ l2) = walk host (walk host cur l1) l2.
Proof.
  revert cur. induction l1 as [|p rest IH]; intros cur; [done|].
  cbn [app walk]. destruct (truthy cur); [|by rewrite walk_undefined].
  destruct (own_property host cur p); [apply IH|by rewrite walk_undefined].
Qed.

(** X12: [pathGet] composes along the dots: resolving [a.b] is resolving
    [b] in what [a] resolves to, for every object and every host. *)
Theorem pathGet_compose (host : jsstr → jsstr → option jsval) (o : jsval)
        (a b : jsstr) :
  pathGet host o (a ++ js "." ++ b) = pathGet host (pathGet host o a) b.
Proof.
  unfold pathGet. change (a ++ js "." ++ b) with (a ++ ch "." :: b).
  rewrite RouteModelFacts.split_app, walk_app.
  destruct (truthy o); cbn [negb].
  - destruct (truthy (walk host o (split (ch ".") a))) eqn:E; [done|].
    cbn [negb]. pose proof (MainFacts.split_not_nil (ch ".") b) as Hne.
    destruct (split (ch ".") b) as [|p rest]; [done|].
    cbn [walk]. by rewrite E.
  - cbn [truthy negb]. done.
Qed.

(** *** Placeholders *)

Lemma span_word_app (s w rest : jsstr) : span_word s = (w, rest) → s = w ++ rest.
Proof.
  revert w rest. induction s as [|c r IH]; intros w rest; simpl.
  - intros. by simplify_eq.
  - destruct (is_word c); [|intros; by simplify_eq].
    destruct (span_word r) as [w' rest'] eqn:E. intros. simplify_eq.
    simpl. by rewrite (IH w' rest).
Qed.

Lemma span_word_word (k b : jsstr) (c : N) :
  forallb is_word k = true → is_word c = false →
  span_word (k ++ c :: b) = (k, c :: b).
Proof.
  intros Hk Hc. induction k as [|x k IH]; simpl.
  - by rewrite Hc.
  - simpl in Hk. apply andb_true_iff in Hk as [Hx Hk].
    by rewrite Hx, (IH Hk).
Qed.

Lemma replace_placeholders_none (f : nat) (vars : gmap jsstr jsstr) (s : jsstr) :
  (∀ k, k ∈ dom vars → False) ∨ ch "{" ∉ s →
  replace_placeholders f vars s = s.
Proof.
  revert s. induction f as [|f IH]; intros s H; [by destruct s|].
  destruct s as [|c r]; [done|]. simpl.
  assert ((∀ k, k ∈ dom vars → False) ∨ ch "{" ∉ r) as Hr.
  { destruct H as [H|H]; [by left|right].
    by apply not_elem_of_cons in H as [_ ?]. }
  destruct (N.eqb_spec c (ch "{")) as [->|Hc]; [|by rewrite (IH r Hr)].
  destruct H as [H|H]; [|by apply not_elem_of_cons in H as [? _]].
  destruct (span_word r) as [[|k w] [|c' r']] eqn:E;
    try by rewrite (IH r Hr).
  apply span_word_app in E. subst r.
  destruct (c' =? ch "}"); [|by rewrite (IH _ Hr)].
  destruct (vars !! (k :: w)) as [v|] eqn:Ev.
  - destruct (H (k :: w)). apply elem_of_dom. by eexists.
  - rewrite (IH r'); [done|]. by left.
Qed.

Lemma replace_placeholders_subst (f : nat) (vars : gmap jsstr jsstr)
      (a k v b : jsstr) :
  ch "{" ∉ a → k ≠ [] → forallb is_word k = true → vars !! k = Some v →
  (length (a ++ js "{" ++ k ++ js "}" ++ b) ≤ f)%nat →
  replace_placeholders f vars (a ++ js "{" ++ k ++ js "}" ++ b)
  = a ++ v ++ replace_placeholders (length b) vars b.
Proof.
  intros Ha Hne Hk Hv. revert f.
  change (js "{" ++ k ++ js "}" ++ b) with (ch "{" :: k ++ ch "}" :: b).
  induction a as [|x a IH]; intros f Hf.
  - cbn [app] in *. destruct f as [|f]; [simpl in Hf; lia|].
    cbn [replace_placeholders]. rewrite N.eqb_refl.
    rewrite (span_word_word k b (ch "}") Hk eq_refl).
    destruct k as [|k0 k']; [done|]. rewrite N.eqb_refl, Hv.
    f_equal. apply replace_placeholders_fuel; [|done].
    simpl in Hf. rewrite length_app in Hf. simpl in Hf. lia.
  - apply not_elem_of_cons in Ha as [Hx Ha].
    destruct f as [|f]; [simpl in Hf; lia|].
    cbn [app replace_placeholders].
    destruct (N.eqb_spec x (ch "{")); [done|].
    rewrite (IH Ha f); [done|]. simpl in Hf. lia.
Qed.

(** X13: [interpolate] leaves a string untouched when no variables are
    given, when the variables object is empty or when the string has no
    opening brace; and a placeholder [{k}] whose name is an own property
    of the variables is replaced by its value, the text before it (free of
    braces) kept and the text after it interpolated in turn. *)
Theorem interpolate_placeholders (vars : gmap jsstr jsstr) (s a k v b : jsstr) :
  interpolate s None = s
  ∧ interpolate s (Some ∅) = s
  ∧ (ch "{" ∉ s → interpolate s (Some vars) = s)
  ∧ (ch "{" ∉ a → k ≠ [] → forallb is_word k = true → vars !! k = Some v →
     interpolate (a ++ js "{" ++ k ++ js "}" ++ b) (Some vars)
     = a ++ v ++ interpolate b (Some vars)).
Proof.
  split; [done|]. split; [|split].
  - apply replace_placeholders_none. left. intros k0 Hk. by rewrite dom_empty_L in Hk.
  - intros H. apply replace_placeholders_none. by right.
  - intros Ha Hne Hk Hv. unfold interpolate.
    by apply replace_placeholders_subst.
Qed.

Lemma interpolate_placeholders_witness :
  interpolate (js "Hello, {name}! {x}") (Some (<[js "name" := js "John"]> ∅))
  = js "Hello, " ++ js "John" ++ interpolate (js "! {x}") (Some (<[js "name" := js "John"]> ∅))
  ∧ interpolate (js "! {x}") (Some ∅) = js "! {x}".
Proof.
  destruct (interpolate_placeholders (<[js "name" := js "John"]> ∅) (js "! {x}")
              (js "Hello, ") (js "name") (js "John") (js "! {x}"))
    as (_ & H2 & _ & H4).
  split; [|exact H2]. apply H4.
  - apply (bool_decide_unpack _). vm_compute. exact I.
  - discriminate.
  - reflexivity.
  - vm_compute. reflexivity.
Defined.

(** *** Switching and persisting the language *)















(** X17: a code that [dictionaries] neither owns nor inherits from
    [Object.prototype] is ignored by [setLanguage]: the language, the
    stores and the listeners are left as they were. *)
Theorem setLanguage_ignores_unknown (lang : jsstr) (st : State) :
  ¬ registered lang → lang ∉ object_prototype_members →
  setLanguage lang st = (Normal tt, st).
Proof.
  intros Hreg Hproto. apply setLanguage_unknown. unfold dictionaries_get.
  assert (assoc lang dictionaries = None) as ->.
  { unfold dictionaries. cbn [assoc].
    case_bool_decide as H1; [destruct Hreg; apply registered_iff; by left|].
    case_bool_decide as H2; [destruct Hreg; apply registered_iff; by right|].
    done. }
  by rewrite bool_decide_eq_false_2.
Qed.

Lemma setLanguage_ignores_unknown_witness :
  setLanguage (js "fr") (loaded None ∅ None) = (Normal tt, loaded None ∅ None).
Proof.
  apply setLanguage_ignores_unknown.
  - rewrite registered_iff. by intros [H|H].
  - apply (bool_decide_unpack _). vm_compute. exact I.
Defined.

End TranslationsMoreFacts.

(* ===================================================================== *)
(** ** Pages, sidebar and escaping *)
(* ===================================================================== *)

Module PagesFacts.

Import Router Main JsFacts RouterFacts MainFacts Sidebar Application.

(** *** Routes and pages *)

(** X18: every route the router allows gets a page of its own, except
    the paths strictly below ["/home"], which are exactly the allowed
    routes that end on the not-found page. *)
Theorem allowed_route_has_page (r : Route) :
  isAllowedRoute (path r) = true →
  (renderer (dispatch r) = NotFoundPage ↔ ∃ t, path r = js "/home/" ++ t).
Proof.
  intros Ha. apply isAllowedRoute_spec in Ha as (base & Hin & Hp).
  destruct r as [p segs prm]. cbn [path] in *.
  unfold ROUTE_WHITELIST in Hin. rewrite !elem_of_cons, elem_of_nil in Hin.
  destruct Hin as [-> | [-> | [-> | [-> | [-> | [-> | []]]]]]];
    destruct Hp as [-> | [t ->]];
    (split; [intros H; try discriminate H; by exists t
            |intros [t' Ht']; try reflexivity; vm_compute in Ht'; by simplify_eq]).
Qed.

Lemma allowed_route_has_page_witness :
  renderer (dispatch {| path := js "/home/x"; segments := [js "home"; js "x"];
                        params := ∅ |}) = NotFoundPage
  ∧ renderer (dispatch {| path := js "/status/lan";
                          segments := [js "status"; js "lan"];
                          params := ∅ |}) ≠ NotFoundPage.
Proof.
  split.
  - apply (allowed_route_has_page
             {| path := js "/home/x"; segments := [js "home"; js "x"]; params := ∅ |}
             eq_refl).
    by exists (js "x").
  - intros H.
    apply (allowed_route_has_page
             {| path := js "/status/lan"; segments := [js "status"; js "lan"];
                params := ∅ |} eq_refl) in H as [t Ht].
    vm_compute in Ht. discriminate Ht.
Defined.

(** X19: in a reachable state with a current route, [renderRoute] never
    throws and leaves the router as it is: it calls the page of that
    route, which is allowed, and a page that throws ends in the error
    placeholder. *)
Theorem renderRoute_contains_errors (render : render_call → completion unit)
        (st : State) (r : Route) :
  reachable st → _currentRoute st = Some r →
  allowed (path r)
  ∧ renderRoute true render st
    = (Normal (match render (dispatch r) with
               | Normal _ => Rendered (dispatch r)
               | Abrupt e => ErrorPlaceholder (dispatch r) e
               end), st).
Proof.
  intros Hreach Hr. split.
  - assert (inv st) as [Hi _].
    { clear Hr. induction Hreach as [h|e st _ IH].
      - split; [done|]. apply Forall_nil_2.
      - by apply inv_after. }
    by rewrite Hr in Hi.
  - by apply renderRoute_catches.
Qed.

Lemma renderRoute_contains_errors_witness :
  let st := settle 1 (after (HashChanges (js "#/status"))
                        (after (InitRouter home_options) (loaded (Some [])))) in
  (renderRoute true (λ _, Abrupt (Thrown 7)) st).1
  = Normal (ErrorPlaceholder {| renderer := StatusPage; render_params := None |}
              (Thrown 7)).
Proof.
  intros st.
  assert (reachable st) as Hr by (do 3 apply reachable_after; apply reachable_loaded).
  destruct (renderRoute_contains_errors (λ _, Abrupt (Thrown 7)) st
              {| path := js "/status"; segments := [js "status"]; params := ∅ |}
              Hr eq_refl) as [_ H].
  by rewrite H.
Defined.

(** X20: for a path at or below ["/application"] the page is called with
    the parameters of the route in which [sub] is replaced by the sub-view
    of the path; that sub-view is never empty, so the application page
    settles on it whatever the location fragment reads and whatever [sub]
    the query carried. *)
Theorem application_sub_from_path (r : Route) (hash : option jsstr) :
  below (path r) (js "/application") →
  ∃ ps, render_params (dispatch r) = Some ps
        ∧ sub_of (path r) ≠ []
        ∧ chosen_sub ps hash = sub_of (path r)
        ∧ ∀ k, k ≠ js "sub" → ps !! k = params r !! k.
Proof.
  intros Hb.
  assert (dispatch r = {| renderer := ApplicationPage;
                          render_params :=
                            Some (<[js "sub" := sub_of (path r)]> (params r)) |})
    as ->.
  { destruct r as [p segs prm]. cbn [path params] in *.
    destruct Hb as [-> | [t ->]]; reflexivity. }
  cbn [render_params]. eexists. split; [done|].
  assert (sub_of (path r) ≠ []) as Hne.
  { unfold sub_of. destruct (split (ch "/") (path r) !! 2%nat) as [s|]; [|done].
    by destruct s. }
  split; [done|]. split.
  - unfold chosen_sub. rewrite lookup_insert_eq. cbn [default].
    by destruct (sub_of (path r)).
  - intros k Hk. by rewrite lookup_insert_ne.
Qed.

Lemma application_sub_from_path_witness :
  let r := {| path := js "/application/about";
              segments := [js "application"; js "about"];
              params := <[js "sub" := js "updates"]> ∅ |} in
  ∃ ps, render_params (dispatch r) = Some ps
        ∧ chosen_sub ps (Some (js "#/application/preferences")) = js "about".
Proof.
  intros r.
  destruct (application_sub_from_path r (Some (js "#/application/preferences")))
    as (ps & H1 & _ & H3 & _).
  { right. by exists (js "about"). }
  exists ps. split; [exact H1|]. rewrite H3. reflexivity.
Defined.

(** *** The active sidebar item *)

Lemma isPathActive_spec (item route : jsstr) :
  isPathActive item route = true
  ↔ item ≠ [] ∧ (route = item ∨ ∃ t, route = item ++ js "/" ++ t).
Proof.
  unfold isPathActive. destruct item as [|c item].
  { split; [done|]. by intros [? _]. }
  destruct route as [|d route].
  { split; [done|]. intros [_ [H|[t H]]]; discriminate H. }
  cbn [is_empty orb].
  rewrite orb_true_iff, bool_decide_eq_true, startsWith_prefix. split.
  - intros [H|[t H]]; (split; [done|]); [by left|right].
    exists t. by rewrite H, <- app_assoc.
  - intros [_ [H|[t H]]]; [by left|right]. exists t. by rewrite H, <- app_assoc.
Qed.

(** X21: being active orders the paths by their segments: a non-empty
    item is active for its own path, an item active for a route is active
    for everything that route is active for, and two items active for the
    same route are comparable, one being active for the other. *)
Theorem isPathActive_order (a b c : jsstr) :
  (a ≠ [] → isPathActive a a = true)
  ∧ (isPathActive a b = true → isPathActive b c = true →
     isPathActive a c = true)
  ∧ (isPathActive a c = true → isPathActive b c = true →
     isPathActive a b = true ∨ isPathActive b a = true).
Proof.
  rewrite !isPathActive_spec. split; [|split].
  - intros H. split; [done|by left].
  - intros [Ha Hab] [Hb Hbc]. split; [done|].
    destruct Hab as [-> | [t ->]]; [done|]. right.
    destruct Hbc as [-> | [t' ->]]; [by exists t|].
    exists (t ++ js "/" ++ t'). by rewrite <- !app_assoc.
  - intros [Ha Hac] [Hb Hbc].
    destruct Hac as [-> | [t ->]].
    { right. split; [done|]. destruct Hbc as [-> | [t' ->]]; [by left|right].
      by exists t'. }
    destruct Hbc as [Hbc|[t' Hbc]].
    { left. split; [done|]. right. exists t. done. }
    apply app_eq_inv in Hbc as [(k & -> & Hk)|(k & -> & Hk)].
    + right. split; [done|]. destruct k as [|x k].
      * left. by rewrite app_nil_r.
      * right. change (js "/") with [47] in *. simpl in Hk.
        injection Hk as <- _. by exists k.
    + left. split; [done|]. destruct k as [|x k].
      * left. by rewrite app_nil_r.
      * right. change (js "/") with [47] in *. simpl in Hk.
        injection Hk as <- _. by exists k.
Qed.

Lemma isPathActive_order_witness :
  isPathActive (js "/basic") (js "/basic/network/wifi") = true
  ∧ (isPathActive (js "/basic") (js "/basic/network") = true
     ∨ isPathActive (js "/basic/network") (js "/basic") = true).
Proof.
  destruct (isPathActive_order (js "/basic") (js "/basic/network")
              (js "/basic/network/wifi")) as (_ & H2 & H3).
  split; [by apply H2|]. apply H3; reflexivity.
Defined.

(** *** Escaping *)

Lemma elem_of_replaceAll (x c : N) (rep s : jsstr) :
  x ∈ replaceAll c rep s → x ∈ rep ∨ (x ∈ s ∧ x ≠ c).
Proof.
  unfold replaceAll. induction s as [|y s IH]; simpl.
  - by intros ?%elem_of_nil.
  - rewrite elem_of_app. intros [H|H].
    + destruct (N.eqb_spec y c) as [->|Hy]; [by left|].
      apply list_elem_of_singleton in H as ->. right.
      split; [apply elem_of_cons; by left|done].
    + destruct (IH H) as [?|[? ?]]; [by left|right].
      split; [apply elem_of_cons; by right|done].
Qed.

Lemma replaceAll_id (c : N) (rep s : jsstr) : c ∉ s → replaceAll c rep s = s.
Proof.
  unfold replaceAll. induction s as [|y s IH]; [done|].
  rewrite not_elem_of_cons. intros [Hy Hs]. simpl.
  destruct (N.eqb_spec y c); [congruence|]. simpl. by rewrite (IH Hs).
Qed.

Lemma replaceAll_app (c : N) (rep a b : jsstr) :
  replaceAll c rep (a ++ b) = replaceAll c rep a ++ replaceAll c rep b.
Proof. unfold replaceAll. by rewrite map_app, concat_app. Qed.

(** X22: what [escapeHtml] returns holds none of the characters [<], [>],
    double quote and single quote; a string without these and without [&]
    is returned as it is; and escaping works piece by piece. *)
Theorem escapeHtml_safe (s t : jsstr) :
  (ch "<" ∉ escapeHtml s) ∧ (ch ">" ∉ escapeHtml s)
  ∧ (quot ∉ escapeHtml s) ∧ (ch "'" ∉ escapeHtml s)
  ∧ ((ch "&" ∉ s) → (ch "<" ∉ s) → (ch ">" ∉ s) → (quot ∉ s) → (ch "'" ∉ s) →
     escapeHtml s = s)
  ∧ escapeHtml (s ++ t) = escapeHtml s ++ escapeHtml t.
Proof.
  unfold escapeHtml.
  assert (∀ x, x = ch "<" ∨ x = ch ">" ∨ x = quot ∨ x = ch "'" →
               x ∉ replaceAll (ch "'") (js "&#039;")
                     (replaceAll quot (js "&quot;")
                        (replaceAll (ch ">") (js "&gt;")
                           (replaceAll (ch "<") (js "&lt;")
                              (replaceAll (ch "&") (js "&amp;") s))))) as H.
  { intros x Hx Hin.
    apply elem_of_replaceAll in Hin as [Hin|[Hin H1]].
    { vm_compute in Hin. destruct Hx as [-> | [-> | [-> | ->]]];
        apply list_elem_of_In in Hin; simpl in Hin; intuition discriminate. }
    apply elem_of_replaceAll in Hin as [Hin|[Hin H2]].
    { vm_compute in Hin. destruct Hx as [-> | [-> | [-> | ->]]];
        apply list_elem_of_In in Hin; simpl in Hin; intuition discriminate. }
    apply elem_of_replaceAll in Hin as [Hin|[Hin H3]].
    { vm_compute in Hin. destruct Hx as [-> | [-> | [-> | ->]]];
        apply list_elem_of_In in Hin; simpl in Hin; intuition discriminate. }
    apply elem_of_replaceAll in Hin as [Hin|[Hin H4]].
    { vm_compute in Hin. destruct Hx as [-> | [-> | [-> | ->]]];
        apply list_elem_of_In in Hin; simpl in Hin; intuition discriminate. }
    destruct Hx as [-> | [-> | [-> | ->]]]; congruence. }
  split; [apply H; auto|]. split; [apply H; auto|].
  split; [apply H; auto|]. split; [apply H; auto|]. split.
  - intros H1 H2 H3 H4 H5.
    by rewrite (replaceAll_id _ _ s H1), (replaceAll_id _ _ s H2),
      (replaceAll_id _ _ s H3), (replaceAll_id _ _ s H4),
      (replaceAll_id _ _ s H5).
  - by rewrite !replaceAll_app.
Qed.

Lemma escapeHtml_safe_witness :
  escapeHtml (js "plain text") = js "plain text"
  ∧ (ch "<" ∉ escapeHtml (js "<b>")).
Proof.
  destruct (escapeHtml_safe (js "plain text") []) as (_ & _ & _ & _ & H & _).
  destruct (escapeHtml_safe (js "<b>") []) as (H1 & _).
  split; [|exact H1].
  apply H; apply (bool_decide_unpack _); vm_compute; exact I.
Defined.

Example escapeHtml_script :
  escapeHtml (js "<a href='x'>R&D</a>")
  = js "&lt;a href=&#039;x&#039;&gt;R&amp;D&lt;/a&gt;".
Proof. reflexivity. Qed.

End PagesFacts.

(* ===================================================================== *)
(** ** The namespaced store *)
(* ===================================================================== *)

Module StorageFacts.

Import Storage JsFacts.

(** The key a namespace lists for a backing key, if it is one of its own. *)
Local Abbreviation own ns :=
  (λ x : jsstr, if startsWith x (ns ++ js ":")
                then Some (slice_from (length ns + 1) x) else None).

(** *** The backing map *)

Lemma mem_get_set (k k' v : jsstr) (l : list (jsstr * jsstr)) :
  mem_get k' (mem_set k v l)
  = if bool_decide (k = k') then Some v else mem_get k' l.
Proof.
  induction l as [|[a b] l IH]; cbn [mem_set mem_get]; [done|].
  destruct (decide (a = k)) as [->|Hak].
  - rewrite bool_decide_eq_true_2 by done. cbn [mem_get].
    by destruct (bool_decide (k = k')).
  - rewrite bool_decide_eq_false_2 by done. cbn [mem_get]. rewrite IH.
    repeat case_bool_decide; by simplify_eq.
Qed.

Lemma mem_get_filter_keep (p : jsstr * jsstr → bool) (k : jsstr)
      (l : list (jsstr * jsstr)) :
  (∀ v, p (k, v) = true) → mem_get k (List.filter p l) = mem_get k l.
Proof.
  intros Hp. induction l as [|[a b] l IH]; [done|]. cbn [List.filter mem_get].
  destruct (p (a, b)) eqn:E; cbn [mem_get].
  - by rewrite IH.
  - rewrite IH. case_bool_decide; [|done]. subst a. by rewrite Hp in E.
Qed.

Lemma mem_get_filter_drop (p : jsstr * jsstr → bool) (k : jsstr)
      (l : list (jsstr * jsstr)) :
  (∀ v, p (k, v) = false) → mem_get k (List.filter p l) = None.
Proof.
  intros Hp. induction l as [|[a b] l IH]; [done|]. cbn [List.filter].
  destruct (p (a, b)) eqn:E; [|done]. cbn [mem_get].
  case_bool_decide; [|done]. subst a. by rewrite Hp in E.
Qed.

Lemma mem_get_delete (k k' : jsstr) (l : list (jsstr * jsstr)) :
  mem_get k' (mem_delete k l)
  = if bool_decide (k = k') then None else mem_get k' l.
Proof.
  unfold mem_delete. case_bool_decide as E.
  - subst k'. apply mem_get_filter_drop. intros v. cbn [fst].
    by rewrite bool_decide_eq_true_2.
  - apply mem_get_filter_keep. intros v. cbn [fst].
    by rewrite bool_decide_eq_false_2.
Qed.

Lemma mem_get_is_Some (k : jsstr) (l : list (jsstr * jsstr)) :
  is_Some (mem_get k l) ↔ k ∈ fst <$> l.
Proof.
  induction l as [|[a b] l IH]; cbn [mem_get].
  - rewrite fmap_nil, elem_of_nil. split; [by intros [? ?]|done].
  - rewrite fmap_cons, elem_of_cons. cbn [fst]. case_bool_decide as E.
    + split; [by left|by eexists].
    + rewrite IH. split; [by right|]. by intros [?|?].
Qed.

(** *** Keys of a namespace *)

Lemma withNamespace_inj (ns k k' : jsstr) :
  withNamespace ns k = withNamespace ns k' → k = k'.
Proof. unfold withNamespace. intros H. by simplify_list_eq. Qed.

Lemma withNamespace_apart (ns ns' k k' : jsstr) :
  (ch ":" ∉ ns) → (ch ":" ∉ ns') →
  withNamespace ns k = withNamespace ns' k' → ns = ns'.
Proof.
  unfold withNamespace. change (js ":") with [ch ":"].
  revert ns'. induction ns as [|c ns IH]; intros [|c' ns'] H1 H2 H.
  - done.
  - injection H as H _. exfalso. apply H2. rewrite <- H. apply elem_of_cons.
    by left.
  - injection H as H _. exfalso. apply H1. rewrite H. apply elem_of_cons.
    by left.
  - injection H as -> H. f_equal. apply not_elem_of_cons in H1 as [_ H1].
    apply not_elem_of_cons in H2 as [_ H2]. by apply IH.
Qed.

Lemma startsWith_withNamespace (ns k : jsstr) :
  startsWith (withNamespace ns k) (ns ++ js ":") = true.
Proof. apply startsWith_prefix. exists k. unfold withNamespace. by rewrite <- app_assoc. Qed.

Lemma slice_withNamespace (ns k : jsstr) :
  slice_from (length ns + 1) (withNamespace ns k) = k.
Proof.
  unfold slice_from, withNamespace. rewrite app_assoc.
  apply drop_app_length'. by rewrite length_app.
Qed.

Lemma own_spec (ns x k : jsstr) : own ns x = Some k ↔ x = withNamespace ns k.
Proof.
  cbv beta. split.
  - destruct (startsWith x (ns ++ js ":")) eqn:E; [|done].
    apply startsWith_prefix in E as [t ->]. intros [= <-].
    rewrite <- app_assoc. fold (withNamespace ns t).
    by rewrite slice_withNamespace.
  - intros ->. by rewrite startsWith_withNamespace, slice_withNamespace.
Qed.

(** *** The methods on a store that does not throw *)

Lemma bind_run {S A B} (c : M S A) (k : A → M S B) (s s' : S) (a : A) :
  c s = (Normal a, s') → (c ≫= k) s = k a s'.
Proof. intros H. unfold mbind, M_bind. by rewrite H. Qed.

Lemma with_items_same (s : Store) : with_items (items s) s = s.
Proof. by destruct s. Qed.

Lemma get_run (ns k : jsstr) (d : option jsstr) (s : Store) :
  failing s = false →
  get_ ns k d s
  = (Normal (match mem_get (withNamespace ns k) (items s) with
             | None => d
             | Some x => Some x
             end), s).
Proof.
  intros Hf. cbv [get_ try_or getItem mbind M_bind mret M_ret get guard].
  by rewrite Hf.
Qed.

Lemma set_run (ns k v : jsstr) (s : Store) :
  failing s = false →
  set ns k v s
  = (Normal true, with_items (mem_set (withNamespace ns k) v (items s)) s).
Proof.
  intros Hf. cbv [set try_or setItem mbind M_bind mret M_ret modify guard].
  by rewrite Hf.
Qed.

Lemma remove_run (ns k : jsstr) (s : Store) :
  failing s = false →
  remove ns k s
  = (Normal true, with_items (mem_delete (withNamespace ns k) (items s)) s).
Proof.
  intros Hf. cbv [remove try_or removeItem mbind M_bind mret M_ret modify guard].
  by rewrite Hf.
Qed.

Lemma key_run (i : nat) (s : Store) :
  failing s = false → key i s = (Normal ((fst <$> items s) !! i), s).
Proof.
  intros Hf. cbv [key mbind M_bind get guard]. rewrite Hf.
  by rewrite list_lookup_fmap.
Qed.

Lemma keys_loop_run (ns : jsstr) (s : Store) :
  failing s = false →
  ∀ n i out,
    keys_loop ns n i out s
    = (Normal (out ++ omap (own ns) (take n (drop i (fst <$> items s)))), s).
Proof.
  intros Hf. induction n as [|n IH]; intros i out.
  - cbn [keys_loop take omap]. by rewrite app_nil_r.
  - cbn [keys_loop]. unfold try_or.
    rewrite (bind_run _ _ _ _ _ (key_run i s Hf)).
    destruct ((fst <$> items s) !! i) as [x|] eqn:E.
    + rewrite (drop_S _ _ _ E). cbn [take omap].
      assert (negb (is_empty x) && startsWith x (ns ++ js ":")
              = startsWith x (ns ++ js ":")) as ->.
      { destruct x; [|done]. change (js ":") with [58%N]. by destruct ns. }
      destruct (startsWith x (ns ++ js ":")) eqn:Es; rewrite IH;
        cbn [omap list_omap]; rewrite Es; [|done].
      by rewrite <- app_assoc.
    + rewrite IH. apply lookup_ge_None_1 in E.
      rewrite !drop_ge by lia. by destruct n.
Qed.

Lemma keys_run (ns : jsstr) (s : Store) :
  failing s = false →
  keys ns s = (Normal (omap (own ns) (fst <$> items s)), s).
Proof.
  intros Hf. unfold keys, try_or.
  assert (length_of s = (Normal (length (items s)), s)) as Hl.
  { cbv [length_of mbind M_bind get guard]. by rewrite Hf. }
  rewrite (bind_run _ _ _ _ _ Hl), (keys_loop_run ns s Hf).
  by rewrite drop_0, take_ge, app_nil_l by (by rewrite length_fmap).
Qed.

Lemma for_of_remove_run (ns : jsstr) (ks : list jsstr) :
  ∀ s, failing s = false →
       for_of ks (λ k, remove ns k ;; mret tt) s
       = (Normal tt,
          with_items (foldl (λ l k, mem_delete (withNamespace ns k) l)
                            (items s) ks) s).
Proof.
  induction ks as [|k ks IH]; intros s Hf.
  - cbn [for_of foldl]. by rewrite with_items_same.
  - cbn [for_of foldl].
    assert ((remove ns k ;; mret tt) s
            = (Normal tt,
               with_items (mem_delete (withNamespace ns k) (items s)) s)) as H.
    { by rewrite (bind_run _ _ _ _ _ (remove_run ns k s Hf)). }
    rewrite (bind_run _ _ _ _ _ H), IH by done. done.
Qed.

Lemma filter_filter_and {A} (p q : A → bool) (l : list A) :
  List.filter p (List.filter q l) = List.filter (λ x, q x && p x) l.
Proof.
  induction l as [|x l IH]; [done|]. cbn [List.filter].
  destruct (q x); cbn [List.filter andb]; [|done].
  destruct (p x); by rewrite IH.
Qed.

Lemma filter_all {A} (p : A → bool) (l : list A) :
  (∀ x, p x = true) → List.filter p l = l.
Proof.
  intros H. induction l as [|x l IH]; [done|]. cbn [List.filter].
  by rewrite H, IH.
Qed.

Lemma foldl_delete (ns : jsstr) (ks : list jsstr) :
  ∀ l, foldl (λ l k, mem_delete (withNamespace ns k) l) l ks
       = List.filter
           (λ kv, negb (bool_decide (kv.1 ∈ withNamespace ns <$> ks))) l.
Proof.
  induction ks as [|k ks IH]; intros l.
  - cbn [foldl]. symmetry. apply filter_all. intros x.
    rewrite fmap_nil, bool_decide_eq_false_2; [done|apply not_elem_of_nil].
  - cbn [foldl]. rewrite IH. unfold mem_delete. rewrite filter_filter_and.
    apply List.filter_ext. intros [a b]. cbn [fst]. rewrite fmap_cons.
    rewrite <- negb_orb. f_equal. rewrite <- bool_decide_or.
    apply bool_decide_ext. by rewrite elem_of_cons.
Qed.

Lemma clearAll_run (ns : jsstr) (s : Store) :
  failing s = false →
  clearAll ns s
  = (Normal tt,
     with_items
       (List.filter (λ kv, negb (startsWith kv.1 (ns ++ js ":"))) (items s)) s).
Proof.
  intros Hf. unfold clearAll.
  rewrite (bind_run _ _ _ _ _ (keys_run ns s Hf)), for_of_remove_run by done.
  f_equal. f_equal. rewrite foldl_delete.
  apply List.filter_ext_in. intros [a b] Hin%list_elem_of_In. cbn [fst].
  f_equal. destruct (startsWith a (ns ++ js ":")) eqn:E.
  - apply bool_decide_eq_true_2. apply startsWith_prefix in E as [t ->].
    apply list_elem_of_fmap. exists t. unfold withNamespace.
    rewrite <- app_assoc. split; [done|].
    apply list_elem_of_omap. exists (ns ++ js ":" ++ t). split.
    + apply list_elem_of_fmap. exists (ns ++ js ":" ++ t, b).
      split; [done|]. by rewrite <- app_assoc in Hin.
    + by apply own_spec.
  - apply bool_decide_eq_false_2. intros (t & -> & _)%list_elem_of_fmap.
    by rewrite startsWith_withNamespace in E.
Qed.

Lemma elem_of_own_keys (ns k : jsstr) (l : list (jsstr * jsstr)) :
  k ∈ omap (own ns) (fst <$> l) ↔ is_Some (mem_get (withNamespace ns k) l).
Proof.
  rewrite list_elem_of_omap, mem_get_is_Some. split.
  - intros (x & Hx & Hown). by apply own_spec in Hown as ->.
  - intros H. exists (withNamespace ns k). split; [done|by apply own_spec].
Qed.

(** *** Properties *)

(** X23: on a store that does not throw, [set] reports success and a
    [get] of the same key then returns the value written, whatever the
    default; the other keys of the namespace read as before. *)
Theorem set_get_round_trip (ns k v : jsstr) (d : option jsstr) (s : Store) :
  failing s = false →
  ∃ s', set ns k v s = (Normal true, s')
        ∧ get_ ns k d s' = (Normal (Some v), s')
        ∧ ∀ k' d', k' ≠ k → (get_ ns k' d' s').1 = (get_ ns k' d' s).1.
Proof.
  intros Hf. eexists. split; [by apply set_run|].
  split.
  - rewrite get_run by done. cbn [items with_items].
    by rewrite mem_get_set, bool_decide_eq_true_2.
  - intros k' d' Hk. rewrite !get_run by done. cbn [items with_items fst].
    rewrite mem_get_set, bool_decide_eq_false_2; [done|].
    intros H%withNamespace_inj. by apply Hk.
Qed.

Lemma set_get_round_trip_witness :
  ∃ s', set (js "app") (js "lang") (js "es")
            {| items := [(js "app:lang", js "en")]; failing := false |}
        = (Normal true, s')
        ∧ get_ (js "app") (js "lang") None s' = (Normal (Some (js "es")), s').
Proof.
  destruct (set_get_round_trip (js "app") (js "lang") (js "es") None
              {| items := [(js "app:lang", js "en")]; failing := false |}
              eq_refl) as (s' & H1 & H2 & _).
  by exists s'.
Defined.

(** X24: on a store that does not throw, [remove] reports success, a
    [get] of the removed key then returns the default, and the other keys
    of the namespace read as before. *)
Theorem remove_then_get (ns k : jsstr) (d : option jsstr) (s : Store) :
  failing s = false →
  ∃ s', remove ns k s = (Normal true, s')
        ∧ get_ ns k d s' = (Normal d, s')
        ∧ ∀ k' d', k' ≠ k → (get_ ns k' d' s').1 = (get_ ns k' d' s).1.
Proof.
  intros Hf. eexists. split; [by apply remove_run|].
  split.
  - rewrite get_run by done. cbn [items with_items].
    by rewrite mem_get_delete, bool_decide_eq_true_2.
  - intros k' d' Hk. rewrite !get_run by done. cbn [items with_items fst].
    rewrite mem_get_delete, bool_decide_eq_false_2; [done|].
    intros H%withNamespace_inj. by apply Hk.
Qed.

Lemma remove_then_get_witness :
  ∃ s', remove (js "app") (js "lang")
               {| items := [(js "app:lang", js "en")]; failing := false |}
        = (Normal true, s')
        ∧ get_ (js "app") (js "lang") (Some (js "fallback")) s'
          = (Normal (Some (js "fallback")), s').
Proof.
  destruct (remove_then_get (js "app") (js "lang") (Some (js "fallback"))
              {| items := [(js "app:lang", js "en")]; failing := false |}
              eq_refl) as (s' & H1 & H2 & _).
  by exists s'.
Defined.

(** X25: over a backing store whose methods throw, nothing is thrown to
    the caller and the store is left alone: [get] returns the default,
    [set] and [remove] report [false], [keys] lists nothing and [clearAll]
    returns. *)
Theorem failing_store_degrades (ns k v : jsstr) (d : option jsstr) (s : Store) :
  failing s = true →
  get_ ns k d s = (Normal d, s)
  ∧ set ns k v s = (Normal false, s)
  ∧ remove ns k s = (Normal false, s)
  ∧ keys ns s = (Normal [], s)
  ∧ clearAll ns s = (Normal tt, s).
Proof.
  intros Hf.
  assert (keys ns s = (Normal [], s)) as Hk.
  { cbv [keys try_or length_of mbind M_bind get guard]. by rewrite Hf. }
  split; [|split; [|split; [|split]]].
  - cbv [get_ try_or getItem mbind M_bind mret M_ret get guard]. by rewrite Hf.
  - cbv [set try_or setItem mbind M_bind mret M_ret modify guard].
    by rewrite Hf.
  - cbv [remove try_or removeItem mbind M_bind mret M_ret modify guard].
    by rewrite Hf.
  - exact Hk.
  - unfold clearAll. by rewrite (bind_run _ _ _ _ _ Hk).
Qed.

Lemma failing_store_degrades_witness :
  let s := {| items := [(js "app:lang", js "en")]; failing := true |} in
  get_ (js "app") (js "lang") None s = (Normal None, s)
  ∧ set (js "app") (js "lang") (js "es") s = (Normal false, s).
Proof.
  intros s.
  destruct (failing_store_degrades (js "app") (js "lang") (js "es") None s
              eq_refl) as (H1 & H2 & _).
  by split.
Defined.

(** X26: on a store that does not throw, [keys] lists exactly the keys
    for which [get] finds a value in the namespace, and leaves the store
    as it is. *)
Theorem keys_lists_namespace (ns : jsstr) (s : Store) :
  failing s = false →
  ∃ ks, keys ns s = (Normal ks, s)
        ∧ ∀ k, k ∈ ks ↔ ∃ v, get_ ns k None s = (Normal (Some v), s).
Proof.
  intros Hf. eexists. split; [by apply keys_run|]. intros k.
  rewrite get_run by done. rewrite elem_of_own_keys. split.
  - intros [v Hv]. exists v. by rewrite Hv.
  - intros [v Hv].
    by destruct (mem_get (withNamespace ns k) (items s)) as [w|] eqn:E.
Qed.

Lemma keys_lists_namespace_witness :
  ∃ ks, keys (js "app")
             {| items := [(js "app:lang", js "en"); (js "other:x", js "1");
                          (js "app:sidebar", js "{}")];
                failing := false |}
        = (Normal ks, {| items := [(js "app:lang", js "en");
                                   (js "other:x", js "1");
                                   (js "app:sidebar", js "{}")];
                         failing := false |})
        ∧ js "sidebar" ∈ ks.
Proof.
  destruct (keys_lists_namespace (js "app")
              {| items := [(js "app:lang", js "en"); (js "other:x", js "1");
                           (js "app:sidebar", js "{}")];
                 failing := false |} eq_refl) as (ks & H1 & H2).
  exists ks. split; [exact H1|]. apply H2. by exists (js "{}").
Defined.

(** X27: on a store that does not throw, [clearAll] removes the entries
    whose backing key starts with the namespace and a colon, and no other:
    afterwards [keys] lists nothing, every [get] in the namespace returns
    its default, and a key of any namespace whose backing key does not
    start so reads as before. *)
Theorem clearAll_clears_namespace (ns : jsstr) (s : Store) :
  failing s = false →
  ∃ s', clearAll ns s = (Normal tt, s')
        ∧ keys ns s' = (Normal [], s')
        ∧ (∀ k d, get_ ns k d s' = (Normal d, s'))
        ∧ ∀ ns' k' d,
            startsWith (withNamespace ns' k') (ns ++ js ":") = false →
            (get_ ns' k' d s').1 = (get_ ns' k' d s).1.
Proof.
  intros Hf. eexists. split; [by apply clearAll_run|].
  assert (∀ k d, get_ ns k d
                   (with_items
                      (List.filter
                         (λ kv, negb (startsWith kv.1 (ns ++ js ":")))
                         (items s)) s)
                 = (Normal d,
                    with_items
                      (List.filter
                         (λ kv, negb (startsWith kv.1 (ns ++ js ":")))
                         (items s)) s)) as Hget.
  { intros k d. rewrite get_run by done. cbn [items with_items].
    rewrite mem_get_filter_drop; [done|]. intros v. cbn [fst].
    by rewrite startsWith_withNamespace. }
  split; [|split; [exact Hget|]].
  - rewrite keys_run by done. cbn [items with_items].
    destruct (omap _ _) as [|k ks] eqn:E; [done|].
    assert (k ∈ k :: ks) as Hin by (apply elem_of_cons; by left).
    rewrite <- E in Hin. apply elem_of_own_keys in Hin as [v Hv].
    rewrite mem_get_filter_drop in Hv; [done|]. intros w. cbn [fst].
    by rewrite startsWith_withNamespace.
  - intros ns' k' d Hns. rewrite !get_run by done. cbn [items with_items fst].
    rewrite mem_get_filter_keep; [done|]. intros v. cbn [fst]. by rewrite Hns.
Qed.

Lemma clearAll_clears_namespace_witness :
  ∃ s', clearAll (js "app")
                 {| items := [(js "app:lang", js "en"); (js "other:x", js "1")];
                    failing := false |}
        = (Normal tt, s')
        ∧ get_ (js "app") (js "lang") None s' = (Normal None, s').
Proof.
  destruct (clearAll_clears_namespace (js "app")
              {| items := [(js "app:lang", js "en"); (js "other:x", js "1")];
                 failing := false |} eq_refl) as (s' & H1 & _ & H3 & _).
  exists s'. split; [exact H1|apply H3].
Defined.

(** X28: two different namespaces without a colon do not see each other:
    what one writes or clears, the other reads as before.  With a colon in
    a name they do: the namespace [ns:sub] is the part of [ns] whose keys
    start with [sub:]. *)
Theorem namespaces_isolated (ns ns' k v : jsstr) (s : Store) :
  (∀ key d, get_ (withNamespace ns ns') key d
            = get_ ns (withNamespace ns' key) d)
  ∧ ((ch ":" ∉ ns) → (ch ":" ∉ ns') → ns ≠ ns' → failing s = false →
     ∀ k' d, (get_ ns' k' d (set ns k v s).2).1 = (get_ ns' k' d s).1
             ∧ (get_ ns' k' d (remove ns k s).2).1 = (get_ ns' k' d s).1
             ∧ (get_ ns' k' d (clearAll ns s).2).1 = (get_ ns' k' d s).1).
Proof.
  split.
  - intros key d. unfold get_, withNamespace. by rewrite <- !app_assoc.
  - intros H1 H2 Hne Hf k' d.
    assert (∀ x, withNamespace ns x ≠ withNamespace ns' k') as Hapart.
    { intros x H. by apply Hne, (withNamespace_apart ns ns' x k'). }
    rewrite set_run, remove_run, clearAll_run by done. cbn [snd].
    rewrite !get_run by done. cbn [items with_items fst].
    rewrite mem_get_set, mem_get_delete.
    rewrite !bool_decide_eq_false_2 by apply Hapart.
    split; [done|]. split; [done|].
    rewrite mem_get_filter_keep; [done|]. intros w. cbn [fst].
    destruct (startsWith (withNamespace ns' k') (ns ++ js ":")) eqn:E; [|done].
    apply startsWith_prefix in E as [t E]. exfalso.
    apply (Hapart t). rewrite E. unfold withNamespace. by rewrite <- app_assoc.
Qed.

Lemma namespaces_isolated_witness :
  let s := {| items := [(js "ui:lang", js "en")]; failing := false |} in
  (get_ (js "ui") (js "lang") None
        (set (js "app") (js "lang") (js "es") s).2).1
  = Normal (Some (js "en")).
Proof.
  intros s.
  destruct (namespaces_isolated (js "app") (js "ui") (js "lang") (js "es") s)
    as [_ H].
  destruct (H ltac:(apply (bool_decide_unpack _); vm_compute; exact I)
              ltac:(apply (bool_decide_unpack _); vm_compute; exact I)
              ltac:(discriminate) eq_refl (js "lang") None) as (H1 & _).
  rewrite H1. reflexivity.
Defined.

(** *** The adapter of [main.js] *)

Lemma remove_first_prefix (pat k : jsstr) :
  Adapter.remove_first pat (pat ++ k) = k.
Proof.
  assert (startsWith (pat ++ k) pat = true) as H
      by (apply startsWith_prefix; by exists k).
  destruct (pat ++ k) eqn:E; cbn [Adapter.remove_first]; rewrite H;
    rewrite <- E; apply drop_app_length.
Qed.

Lemma remove_first_no_colon (k : jsstr) :
  (ch ":" ∉ k) → Adapter.remove_first (js "app:") k = k.
Proof.
  induction k as [|c k IH]; intros Hk.
  - reflexivity.
  - cbn [Adapter.remove_first].
    destruct (startsWith (c :: k) (js "app:")) eqn:E.
    + apply startsWith_prefix in E as [t E]. exfalso. apply Hk. rewrite E.
      apply (bool_decide_unpack _). vm_compute. exact I.
    + apply not_elem_of_cons in Hk as [_ Hk]. by rewrite IH.
Qed.

(** X29: through the adapter that [main.js] hands to [initI18n], over a
    store that does not throw, a value written under a key is read back
    under it; a key that starts with [app:] is kept in the backing store
    under that very key, and is read back as well under the name without
    the prefix when that name holds no colon. *)
Theorem adapter_round_trip (k v : jsstr) (s : Store) :
  failing s = false →
  ∃ s', Adapter.setItem k v s = (Normal true, s')
        ∧ Adapter.getItem k s' = (Normal (Some v), s')
        ∧ (startsWith k (js "app:") = true →
           getItem k s' = (Normal (Some v), s'))
        ∧ ∀ k', k = js "app:" ++ k' → (ch ":" ∉ k') →
                Adapter.getItem k' s' = (Normal (Some v), s').
Proof.
  intros Hf. unfold Adapter.setItem, Adapter.getItem.
  set (key := Adapter.remove_first (js "app:") k).
  set (s' := with_items (mem_set (withNamespace (js "app") key) v (items s)) s).
  assert (failing s' = false) as Hf' by done.
  assert (get_ (js "app") key None s' = (Normal (Some v), s')) as Hget.
  { rewrite get_run by done. cbn [items with_items s'].
    by rewrite mem_get_set, bool_decide_eq_true_2. }
  exists s'. split; [by apply set_run|]. split; [exact Hget|].
  subst key. split.
  - intros [t ->]%startsWith_prefix. rewrite remove_first_prefix in Hget.
    rewrite get_run in Hget by done.
    cbv [getItem mbind M_bind get guard]. rewrite Hf'.
    change (withNamespace (js "app") t) with (js "app:" ++ t) in Hget.
    destruct (mem_get (js "app:" ++ t) (items s')); [done|discriminate Hget].
  - intros k' -> Hk'. rewrite remove_first_prefix in Hget.
    by rewrite remove_first_no_colon.
Qed.

Lemma adapter_round_trip_witness :
  ∃ s', Adapter.setItem (js "app:lang") (js "es")
                        {| items := []; failing := false |}
        = (Normal true, s')
        ∧ getItem (js "app:lang") s' = (Normal (Some (js "es")), s')
        ∧ Adapter.getItem (js "lang") s' = (Normal (Some (js "es")), s').
Proof.
  destruct (adapter_round_trip (js "app:lang") (js "es")
              {| items := []; failing := false |} eq_refl)
    as (s' & H1 & _ & H3 & H4).
  exists s'. split; [exact H1|]. split; [by apply H3|].
  apply (H4 (js "lang")); [reflexivity|].
  apply (bool_decide_unpack _). vm_compute. exact I.
Defined.

End StorageFacts.
